(** * gizyskon: a letter puzzle, its forward maps and their inversion

    Shallow embedding of [main.py].  Python integers are unbounded, so they
    are [Z]; [%] with a positive divisor is [Z.modulo]; a list is a [list];
    the two dictionaries [val] and [letter] are [gmap]s; a raised exception
    is a result [Raise e], and a function that may return [None] returns an
    [option] inside the result. *)

From Stdlib Require Import ZArith Lia String Ascii List Decimal.
From Stdlib Require DecimalFacts DecimalPos.
From stdpp Require Import base numbers list gmap strings.

Local Open Scope Z_scope.

(** ** Exceptions and results *)

Inductive exn : Type :=
| IndexError                (* sequence index out of range, pop from empty list *)
| KeyError_chr (c : ascii)  (* val[c] with c not a key *)
| KeyError_int (v : Z)      (* letter[v] with v not a key *)
| ValueError                (* int('-') *)
| TypeError.                (* arithmetic on None *)

Inductive res (A : Type) : Type :=
| Ok (a : A)
| Raise (e : exn).

Arguments Ok {A} a.
Arguments Raise {A} e.

Definition bind {A B : Type} (m : res A) (k : A -> res B) : res B :=
  match m with
  | Ok a => k a
  | Raise e => Raise e
  end.

Notation "'let*' x ':=' m 'in' k" := (bind m (fun x => k))
  (at level 10, x name, m at level 100, k at level 200).

(** A comprehension [[f(a) for a in l]]: left to right, the first exception
    ends it. *)
Fixpoint mapM {A B : Type} (f : A -> res B) (l : list A) : res (list B) :=
  match l with
  | [] => Ok []
  | a :: l' =>
      let* b := f a in
      let* bs := mapM f l' in
      Ok (b :: bs)
  end.

(** A [for] loop over [l] that updates a state [s]. *)
Fixpoint for_each {A S : Type} (l : list A) (body : A -> S -> res S) (s : S)
  : res S :=
  match l with
  | [] => Ok s
  | a :: l' => let* s' := body a s in for_each l' body s'
  end.

(** [l[i]] for [i >= 0]. *)
Definition getitem {A : Type} (l : list A) (i : nat) : res A :=
  match l !! i with
  | Some a => Ok a
  | None => Raise IndexError
  end.

(** [l[-1]]. *)
Definition getitem_last {A : Type} (l : list A) : res A :=
  match last l with
  | Some a => Ok a
  | None => Raise IndexError
  end.

(** [range(start, stop, step)] for [step > 0]. *)
Definition range3 (start stop step : Z) : list Z :=
  (fun k => start + k * step) <$> seqZ 0 ((stop - start + step - 1) `div` step).

(** [range(start, stop)]. *)
Definition range2 (start stop : Z) : list Z := seqZ start (stop - start).

(** [enumerate(l)]. *)
Definition enumerate {A : Type} (l : list A) : list (Z * A) :=
  imap (fun i a => (Z.of_nat i, a)) l.

(** [sum(l)]. *)
Definition sum (l : list Z) : Z := foldl Z.add 0 l.

(** ** The alphabet codec *)

Definition alphabet : string := "ABCDEFGHIJKLMNOPQRSTUVWXYZ"%string.

Definition val : gmap ascii Z :=
  foldl (fun d ic => <[ic.2 := ic.1 + 1]> d) ∅
        (enumerate (list_ascii_of_string alphabet)).

Definition letter : gmap Z ascii :=
  foldl (fun d ic => <[ic.1 + 1 := ic.2]> d) ∅
        (enumerate (list_ascii_of_string alphabet)).

Definition val_getitem (c : ascii) : res Z :=
  match val !! c with
  | Some v => Ok v
  | None => Raise (KeyError_chr c)
  end.

Definition letter_getitem (v : Z) : res ascii :=
  match letter !! v with
  | Some c => Ok c
  | None => Raise (KeyError_int v)
  end.

Arguments val_getitem : simpl never.
Arguments letter_getitem : simpl never.

Definition to_word (values : list Z) : res string :=
  let* cs := mapM letter_getitem values in
  Ok (string_of_list_ascii cs).

Definition from_word (w : string) : res (list Z) :=
  mapM val_getitem (list_ascii_of_string w).

(** ** Interpretation A: forward map *)

(** The loop of [map_interpretation_A_tail_plus6_mod26], over the reversed
    values, with its two variables [tail] and [out]. *)
Fixpoint map_A_loop (xs : list Z) (tail : Z) (out : list Z) : list Z :=
  match xs with
  | [] => out
  | x :: xs' =>
      let tail := tail + x in
      let y := ((tail + 6 - 1) mod 26) + 1 in
      map_A_loop xs' tail (out ++ [y])
  end.

Definition map_interpretation_A_tail_plus6_mod26 (values : list Z) : list Z :=
  rev (map_A_loop (rev values) 0 []).

(** ** Interpretation B: digit sum and forward map *)

(** The characters of [str(n)] for [n >= 0], as the integers [int(d)]. *)
Fixpoint uint_digits (u : Decimal.uint) : list Z :=
  match u with
  | Decimal.Nil => []
  | Decimal.D0 u => 0 :: uint_digits u
  | Decimal.D1 u => 1 :: uint_digits u
  | Decimal.D2 u => 2 :: uint_digits u
  | Decimal.D3 u => 3 :: uint_digits u
  | Decimal.D4 u => 4 :: uint_digits u
  | Decimal.D5 u => 5 :: uint_digits u
  | Decimal.D6 u => 6 :: uint_digits u
  | Decimal.D7 u => 7 :: uint_digits u
  | Decimal.D8 u => 8 :: uint_digits u
  | Decimal.D9 u => 9 :: uint_digits u
  end.

(** [str(n)] of a negative [n] starts with the sign, and [int('-')] raises.
    The interpreter also refuses [str(n)] when [n] has more digits than its
    limit ([int_max_str_digits] below, by default); that limit is no part
    of this definition, which describes the calls that stay within it. *)
Definition digit_sum (n : Z) : res Z :=
  match Z.to_int n with
  | Decimal.Pos u => Ok (sum (uint_digits u))
  | Decimal.Neg _ => Raise ValueError
  end.

Fixpoint map_B_loop (xs : list Z) (tail : Z) (out : list Z) : res (list Z) :=
  match xs with
  | [] => Ok out
  | x :: xs' =>
      let tail := tail + x in
      let* d := digit_sum tail in
      let y := ((d + 6 - 1) mod 26) + 1 in
      map_B_loop xs' tail (out ++ [y])
  end.

Definition map_interpretation_B (values : list Z) : res (list Z) :=
  let* out := map_B_loop (rev values) 0 [] in
  Ok (rev out).

(** ** Interpretation A: reconstruction *)

(** [l[i] = v] for [i >= 0]. *)
Definition setitem {A : Type} (l : list A) (i : nat) (v : A) : res (list A) :=
  if decide (i < length l)%nat then Ok (<[i := v]> l) else Raise IndexError.

(** [l[-1] = v]. *)
Definition setitem_last {A : Type} (l : list A) (v : A) : res (list A) :=
  match l with
  | [] => Raise IndexError
  | _ => Ok (<[Nat.pred (length l) := v]> l)
  end.

(** [T[i]] used as a number: the entry may still be [None]. *)
Definition getitem_int (T : list (option Z)) (i : nat) : res Z :=
  let* o := getitem T i in
  match o with
  | Some t => Ok t
  | None => Raise TypeError
  end.

(** The list [candidates] of one round of the loop, from the target value
    [yi] and the tail sum [T[i+1]] that the round reads. *)
Definition loop_candidates (yi T_next : Z) : list Z :=
  let residue := (yi - 6) mod 26 in
  let low := T_next + 1 in
  let high := T_next + 26 in
  let r0 := if residue =? 0 then 26 else residue in
  let start := low + ((r0 - low) mod 26) in
  foldl (fun c t => c ++ [t]) [] (range3 start (high + 1) 26).

(** The loop [for i in range(n-2, -1, -1)]: [k] is [i + 1], so [k = 0] is the
    end of the loop and [return x].  The result [Ok None] is [return None].
    The source reads [T[i+1]] once for [low] and once for [high], with
    nothing written in between; the round reads it once for both. *)
Fixpoint reconstruct_A_loop (target_vals : list Z) (k : nat)
    (T x : list (option Z)) : res (option (list (option Z))) :=
  match k with
  | O => Ok (Some x)
  | S i =>
      let* yi := getitem target_vals i in
      let* T_next := getitem_int T (i + 1) in
      let candidates := loop_candidates yi T_next in
      if negb (length candidates =? 1)%nat then Ok None else
      let* Ti := getitem candidates 0 in
      let* T := setitem T i (Some Ti) in
      let* T_next := getitem_int T (i + 1) in
      let xi := Ti - T_next in
      if negb ((1 <=? xi) && (xi <=? 26)) then Ok None else
      let* x := setitem x i (Some xi) in
      reconstruct_A_loop target_vals i T x
  end.

Definition reconstruct_interpretation_A (target_vals : list Z)
  : res (option (list (option Z))) :=
  let n := length target_vals in
  let T := replicate n None in
  let x := replicate n None in
  let* yn := getitem_last target_vals in
  let residue := (yn - 6) mod 26 in
  let Tn := if negb (residue =? 0) then residue else 26 in
  if negb ((1 <=? Tn) && (Tn <=? 26)) then Ok None else
  let* T := setitem_last T (Some Tn) in
  let* x := setitem_last x (Some Tn) in
  reconstruct_A_loop target_vals (n - 1) T x.

Definition map_to_word_interpretation_A (w : string) : res string :=
  let* values := from_word w in
  let outvals := map_interpretation_A_tail_plus6_mod26 values in
  to_word outvals.

(** ** Interpretation B: backtracking search *)

(** A comprehension with a condition. *)
Fixpoint filterM {A : Type} (p : A -> res bool) (l : list A) : res (list A) :=
  match l with
  | [] => Ok []
  | a :: l' =>
      let* b := p a in
      let* r := filterM p l' in
      Ok (if b then a :: r else r)
  end.

(** What [backtrack] mutates: the list [sols] of the enclosing call, and the
    one list object [acc_letters] that every recursive call receives. *)
Record search_state : Type := SearchState {
  sols : list (list Z);
  acc_letters : list Z
}.

(** [sols.append(list(reversed(acc_letters)))]. *)
Definition record_solution (st : search_state) : search_state :=
  {| sols := sols st ++ [rev (acc_letters st)];
     acc_letters := acc_letters st |}.

(** [acc_letters.append(xi)]. *)
Definition acc_append (xi : Z) (st : search_state) : search_state :=
  {| sols := sols st; acc_letters := acc_letters st ++ [xi] |}.

(** [acc_letters.pop()]. *)
Definition acc_pop (st : search_state) : res search_state :=
  match acc_letters st with
  | [] => Raise IndexError
  | _ => Ok {| sols := sols st; acc_letters := removelast (acc_letters st) |}
  end.

(** [backtrack(i, T_next, acc_letters)] with [k = i + 1]: [k = 0] is the
    case [i < 0].  The calls nest one deep for each position of the target;
    the bound that the interpreter puts on the nesting of calls is no part
    of this definition, which describes the calls that return. *)
Fixpoint backtrack (target_vals : list Z) (k : nat) (T_next : Z)
    (st : search_state) : res search_state :=
  match k with
  | O => Ok (record_solution st)
  | S i =>
      let low := T_next + 1 in
      let high := T_next + 26 in
      let* y := getitem target_vals i in
      for_each (range2 low (high + 1))
        (fun Ti st =>
           let* d := digit_sum Ti in
           if ((d + 6 - 1) mod 26) + 1 =? y then
             let xi := Ti - T_next in
             if (1 <=? xi) && (xi <=? 26) then
               let st := acc_append xi st in
               let* st := backtrack target_vals i Ti st in
               acc_pop st
             else Ok st
           else Ok st)
        st
  end.

Definition reconstruct_interpretation_B_all (target_vals : list Z)
  : res (list (list Z)) :=
  let n := length target_vals in
  let sols0 : list (list Z) := [] in
  let* last_target := getitem_last target_vals in
  let* last_candidates :=
    filterM (fun t => let* d := digit_sum t in
                      Ok (((d + 6 - 1) mod 26) + 1 =? last_target))
            (range2 1 (26 + 1)) in
  for_each last_candidates
    (fun Tn sols1 =>
       let* st := backtrack target_vals (n - 1) Tn
                    {| sols := sols1; acc_letters := [Tn] |} in
       Ok (sols st))
    sols0.

(** ** Vocabulary of the specification *)

(** One of the 26 recognised letters. *)
Definition recognized (c : ascii) : Prop := c ∈ list_ascii_of_string alphabet.

(** A value of a value sequence. *)
Definition in_range (v : Z) : Prop := 1 ≤ v ≤ 26.

#[local] Instance recognized_dec c : Decision (recognized c).
Proof. unfold recognized. apply _. Defined.

#[local] Instance in_range_dec v : Decision (in_range v).
Proof. unfold in_range. apply _. Defined.

(** The interpreter's default limit on the number of digits of [str(n)];
    above it [str(n)] raises [ValueError]. *)
Definition int_max_str_digits : Z := 4300.

(** [f(v) = ((v + 6 - 1) mod 26) + 1] of the specification. *)
Definition add6 (v : Z) : Z := ((v + 6 - 1) mod 26) + 1.

(** The tail sum [T_i]: the sum of the values at positions [i .. n-1]. *)
Definition tail_sum (values : list Z) (i : nat) : Z := sum (drop i values).

(** The sum of the decimal digits of [n >= 0] in the words of the
    specification, by division by 10; [fuel] bounds the number of digits. *)
Fixpoint decimal_digit_sum_fuel (fuel : nat) (n : Z) : Z :=
  match fuel with
  | O => 0
  | S fuel' =>
      if n <? 10 then n
      else n mod 10 + decimal_digit_sum_fuel fuel' (n `div` 10)
  end.

Definition decimal_digit_sum (n : Z) : Z :=
  decimal_digit_sum_fuel (Z.to_nat n) n.

(** The decimal digit [r] put in front of a number written with its last
    digit first. *)
Definition push_digit (r : Z) (u : Decimal.uint) : Decimal.uint :=
  match r with
  | 0 => Decimal.D0 u | 1 => Decimal.D1 u | 2 => Decimal.D2 u
  | 3 => Decimal.D3 u | 4 => Decimal.D4 u | 5 => Decimal.D5 u
  | 6 => Decimal.D6 u | 7 => Decimal.D7 u | 8 => Decimal.D8 u
  | _ => Decimal.D9 u
  end.

(** ** Closed forms used to state what the reconstructions compute *)

(** The tail sum of the last position in [reconstruct_interpretation_A]: its
    [Tn]. *)
Definition last_T (yn : Z) : Z :=
  let residue := (yn - 6) mod 26 in
  if negb (residue =? 0) then residue else 26.

(** The [start] of one round of the loop of [reconstruct_interpretation_A],
    for the target value [y] and the tail sum [T_next] to its right. *)
Definition window_start (y T_next : Z) : Z :=
  let residue := (y - 6) mod 26 in
  let low := T_next + 1 in
  let r0 := if residue =? 0 then 26 else residue in
  low + ((r0 - low) mod 26).

(** The values chosen from right to left for the target values [ys] (given
    from right to left), each tail sum being the [start] of its window. *)
Fixpoint chain_A (ys : list Z) (T_next : Z) : list Z :=
  match ys with
  | [] => []
  | y :: ys' =>
      let Ti := window_start y T_next in
      (Ti - T_next) :: chain_A ys' Ti
  end.

(** The outputs of variant A for the values [xs] given from right to left,
    above the tail sum [tail]. *)
Fixpoint outputs_A (xs : list Z) (tail : Z) : list Z :=
  match xs with
  | [] => []
  | x :: xs' => add6 (tail + x) :: outputs_A xs' (tail + x)
  end.

(** The test of the search of variant B:
    [((digit_sum(t) + 6 - 1) % 26) + 1 == y]. *)
Definition matches_B (t y : Z) : bool :=
  match digit_sum t with
  | Ok d => ((d + 6 - 1) mod 26) + 1 =? y
  | Raise _ => false
  end.

(** The search tree of [backtrack] as a list: for the target values [ys]
    (given from right to left) and the tail sum [T_next], the values that
    the calls append to [acc_letters], in the order of the search. *)
Fixpoint enum_B (ys : list Z) (T_next : Z) : list (list Z) :=
  match ys with
  | [] => [[]]
  | y :: ys' =>
      seqZ (T_next + 1) 26 ≫= (fun Ti =>
        if matches_B Ti y then cons (Ti - T_next) <$> enum_B ys' Ti else [])
  end.

(** The outputs of variant B for the values [xs] given from right to left,
    above the tail sum [tail]. *)
Fixpoint outputs_B (xs : list Z) (tail : Z) : res (list Z) :=
  match xs with
  | [] => Ok []
  | x :: xs' =>
      let* d := digit_sum (tail + x) in
      let* r := outputs_B xs' (tail + x) in
      Ok (add6 d :: r)
  end.

(** * Examples *)

Example val_A : val !! "A"%char = Some 1.
Proof. vm_compute. reflexivity. Qed.

Example letter_26 : letter !! 26 = Some "Z"%char.
Proof. vm_compute. reflexivity. Qed.

Example from_word_example :
  from_word "BULLSHIT" = Ok [2; 21; 12; 12; 19; 8; 9; 20].
Proof. vm_compute. reflexivity. Qed.

Example digit_sum_example : digit_sum 199 = Ok 19.
Proof. vm_compute. reflexivity. Qed.

Example map_B_example : map_interpretation_B [1; 26; 3] = Ok [9; 17; 9].
Proof. vm_compute. reflexivity. Qed.

Example reconstruct_A_example :
  reconstruct_interpretation_A [2; 21; 12; 12; 19; 8; 9; 20]
  = Ok (Some (Some <$> [7; 9; 26; 19; 11; 25; 15; 14])).
Proof. vm_compute. reflexivity. Qed.

Example reconstruct_A_empty : reconstruct_interpretation_A [] = Raise IndexError.
Proof. vm_compute. reflexivity. Qed.

Example reconstruct_B_example :
  reconstruct_interpretation_B_all [9; 17; 9] =
  Ok [[1; 26; 3]; [1; 17; 12]; [1; 8; 21]].
Proof. vm_compute. reflexivity. Qed.

(** * The alphabet codec *)

Section Codec.

Lemma val_entries :
  map_Forall (fun c v => in_range v ∧ letter !! v = Some c ∧ recognized c) val.
Proof. apply (bool_decide_unpack _). vm_compute. reflexivity. Qed.

Lemma letter_entries :
  map_Forall (fun v c => in_range v ∧ val !! c = Some v) letter.
Proof. apply (bool_decide_unpack _). vm_compute. reflexivity. Qed.

Lemma val_total :
  Forall (fun c => is_Some (val !! c)) (list_ascii_of_string alphabet).
Proof. apply (bool_decide_unpack _). vm_compute. reflexivity. Qed.

Lemma letter_total : Forall (fun v => is_Some (letter !! v)) (seqZ 1 26).
Proof. apply (bool_decide_unpack _). vm_compute. reflexivity. Qed.

Lemma val_getitem_Ok c v :
  val_getitem c = Ok v ↔ val !! c = Some v.
Proof. unfold val_getitem. destruct (val !! c); split; congruence. Qed.

Lemma val_getitem_recognized c :
  recognized c → ∃ v, val_getitem c = Ok v ∧ in_range v ∧ letter_getitem v = Ok c.
Proof.
  intros Hc. pose proof val_total as Ht.
  rewrite Forall_forall in Ht. destruct (Ht c Hc) as [v Hv].
  destruct (val_entries c v Hv) as (Hr & Hl & _).
  exists v. unfold val_getitem, letter_getitem. rewrite Hv, Hl. auto.
Qed.

Lemma val_getitem_unrecognized c :
  ¬ recognized c → val_getitem c = Raise (KeyError_chr c).
Proof.
  intros Hc. unfold val_getitem.
  destruct (val !! c) as [v|] eqn:Hv; [|reflexivity].
  destruct (val_entries c v Hv) as (_ & _ & ?). contradiction.
Qed.

Lemma letter_getitem_in_range v :
  in_range v → ∃ c, letter_getitem v = Ok c ∧ recognized c ∧ val_getitem c = Ok v.
Proof.
  intros Hv. pose proof letter_total as Ht.
  rewrite Forall_forall in Ht.
  destruct (Ht v) as [c Hc].
  { apply elem_of_seqZ. unfold in_range in Hv. lia. }
  destruct (letter_entries v c Hc) as (_ & Hl).
  destruct (val_entries c v Hl) as (_ & _ & Hrec).
  exists c. unfold val_getitem, letter_getitem. rewrite Hc, Hl. auto.
Qed.

Lemma letter_getitem_out_of_range v :
  ¬ in_range v → letter_getitem v = Raise (KeyError_int v).
Proof.
  intros Hv. unfold letter_getitem.
  destruct (letter !! v) as [c|] eqn:Hc; [|reflexivity].
  destruct (letter_entries v c Hc) as (? & _). contradiction.
Qed.

(** [mapM] succeeds exactly when [f] succeeds on every element. *)
Lemma mapM_Ok {A B} (f : A → res B) l bs :
  mapM f l = Ok bs ↔ Forall2 (fun a b => f a = Ok b) l bs.
Proof.
  revert bs. induction l as [|a l IH]; intros bs; simpl.
  - split.
    + intros [= <-]. constructor.
    + intros H. inversion H. reflexivity.
  - destruct (f a) as [b|e] eqn:Hf; simpl.
    + destruct (mapM f l) as [bs'|e] eqn:Hm; simpl.
      * split.
        -- intros [= <-]. constructor; [assumption|]. by apply IH.
        -- intros H. inversion H as [|? b' ? bs'' Hb Hbs]; subst.
           apply IH in Hbs. congruence.
      * split; [discriminate|].
        intros H. inversion H as [|? b' ? bs'' Hb Hbs]; subst.
        apply IH in Hbs. discriminate.
    + split; [discriminate|].
      intros H. inversion H; subst. congruence.
Qed.

(** The first element on which [f] raises decides the exception. *)
Lemma mapM_Raise {A B} (f : A → res B) pre a post e :
  Forall (fun a => ∃ b, f a = Ok b) pre → f a = Raise e →
  mapM f (pre ++ a :: post) = Raise e.
Proof.
  intros Hpre Ha. induction Hpre as [|a' pre [b Hb] _ IH]; simpl.
  - by rewrite Ha.
  - by rewrite Hb, IH.
Qed.

Lemma mapM_val_letter cs :
  Forall recognized cs →
  ∃ v, mapM val_getitem cs = Ok v ∧ Forall in_range v
       ∧ mapM letter_getitem v = Ok cs.
Proof.
  induction 1 as [|c cs Hc _ (v & Hv & Hr & Hback)].
  - exists []. split; [reflexivity|]. split; [constructor|reflexivity].
  - destruct (val_getitem_recognized c Hc) as (x & Hx & Hxr & Hxl).
    exists (x :: v). cbn [mapM bind]. rewrite Hx, Hv, Hxl, Hback. cbn [bind].
    split; [reflexivity|]. split; [|reflexivity]. constructor; assumption.
Qed.

Lemma mapM_letter_val vs :
  Forall in_range vs →
  ∃ cs, mapM letter_getitem vs = Ok cs ∧ Forall recognized cs
        ∧ mapM val_getitem cs = Ok vs.
Proof.
  induction 1 as [|v vs Hv _ (cs & Hcs & Hr & Hback)].
  - exists []. split; [reflexivity|]. split; [constructor|reflexivity].
  - destruct (letter_getitem_in_range v Hv) as (c & Hc & Hcr & Hcv).
    exists (c :: cs). cbn [mapM bind]. rewrite Hc, Hcs, Hcv, Hback. cbn [bind].
    split; [reflexivity|]. split; [|reflexivity]. constructor; assumption.
Qed.

(** If the comprehension succeeds, every element was a key. *)
Lemma mapM_val_Ok cs v :
  mapM val_getitem cs = Ok v → Forall recognized cs ∧ Forall in_range v.
Proof.
  rewrite mapM_Ok. induction 1 as [|c x cs v Hx _ [IH1 IH2]].
  - split; constructor.
  - apply val_getitem_Ok in Hx.
    destruct (val_entries c x Hx) as (? & _ & ?).
    split; constructor; assumption.
Qed.

Lemma mapM_letter_Ok vs cs :
  mapM letter_getitem vs = Ok cs → Forall in_range vs.
Proof.
  rewrite mapM_Ok. induction 1 as [|v c vs cs Hc _ IH]; constructor; auto.
  destruct (decide (in_range v)) as [|Hn]; [assumption|].
  apply letter_getitem_out_of_range in Hn. congruence.
Qed.

End Codec.

(** C7: for every word W made only of the 26 letters A..Z,
    [to_word(from_word(W)) == W]: the conversion to values succeeds and the
    conversion back gives W again. *)
Theorem codec_round_trip (W : string) :
  Forall recognized (list_ascii_of_string W) →
  ∃ v, from_word W = Ok v ∧ to_word v = Ok W.
Proof.
  intros HW. destruct (mapM_val_letter _ HW) as (v & Hv & _ & Hback).
  exists v. unfold from_word, to_word. rewrite Hv, Hback. cbn [bind].
  split; [reflexivity|]. by rewrite string_of_list_ascii_of_string.
Qed.

Lemma codec_round_trip_witness :
  Forall recognized (list_ascii_of_string "BULLSHIT") ∧
  ∃ v, from_word "BULLSHIT" = Ok v ∧ to_word v = Ok "BULLSHIT"%string.
Proof.
  assert (H : Forall recognized (list_ascii_of_string "BULLSHIT")).
  { apply (bool_decide_unpack _). vm_compute. reflexivity. }
  split; [exact H | exact (codec_round_trip "BULLSHIT" H)].
Defined.

(** C9: [from_word(w)] returns a value sequence, every entry in [1,26],
    exactly when every character of [w] is one of the 26 letters, and the
    first character that is not raises the [KeyError] of the lookup;
    [to_word(seq)] returns a word exactly when every entry of [seq] is in
    [1,26], and the first entry that is not raises the [KeyError]. *)
Theorem codec_failure :
  (∀ w, (∃ v, from_word w = Ok v) ↔ Forall recognized (list_ascii_of_string w))
  ∧ (∀ w v, from_word w = Ok v → Forall in_range v)
  ∧ (∀ pre c post, Forall recognized pre → ¬ recognized c →
       from_word (string_of_list_ascii (pre ++ c :: post))
       = Raise (KeyError_chr c))
  ∧ (∀ seq, (∃ w, to_word seq = Ok w) ↔ Forall in_range seq)
  ∧ (∀ pre v post, Forall in_range pre → ¬ in_range v →
       to_word (pre ++ v :: post) = Raise (KeyError_int v)).
Proof.
  split; [|split; [|split; [|split]]].
  - intros w. split.
    + intros [v Hv]. by apply mapM_val_Ok in Hv as [? _].
    + intros Hw. destruct (mapM_val_letter _ Hw) as (v & Hv & _). by exists v.
  - intros w v Hv. by apply mapM_val_Ok in Hv as [_ ?].
  - intros pre c post Hpre Hc. unfold from_word.
    rewrite list_ascii_of_string_of_list_ascii.
    apply mapM_Raise; [|by apply val_getitem_unrecognized].
    eapply Forall_impl; [exact Hpre|]. intros a Ha.
    destruct (val_getitem_recognized a Ha) as (x & Hx & _). by exists x.
  - intros seq. unfold to_word. split.
    + intros [w Hw].
      destruct (mapM letter_getitem seq) as [cs|] eqn:Hcs; [|discriminate].
      by apply mapM_letter_Ok in Hcs.
    + intros Hs. destruct (mapM_letter_val _ Hs) as (cs & Hcs & _).
      rewrite Hcs. by eexists.
  - intros pre v post Hpre Hv. unfold to_word.
    rewrite (mapM_Raise letter_getitem pre v post (KeyError_int v));
      [reflexivity| |by apply letter_getitem_out_of_range].
    eapply Forall_impl; [exact Hpre|]. intros a Ha.
    destruct (letter_getitem_in_range a Ha) as (x & Hx & _). by exists x.
Qed.

Example from_word_lower : from_word "BUlL" = Raise (KeyError_chr "l").
Proof. vm_compute. reflexivity. Qed.

Example to_word_zero : to_word [2; 0; 27] = Raise (KeyError_int 0).
Proof. vm_compute. reflexivity. Qed.

(** * The forward transforms *)

Section Forward.

Lemma foldl_add_acc (a : Z) (l : list Z) :
  foldl Z.add a l = a + foldl Z.add 0 l.
Proof.
  revert a. induction l as [|x l IH]; intros a; simpl; [lia|].
  rewrite (IH (a + x)), (IH (0 + x)). lia.
Qed.

Lemma sum_nil : sum [] = 0.
Proof. reflexivity. Qed.

Lemma sum_cons x l : sum (x :: l) = x + sum l.
Proof. unfold sum. simpl. apply foldl_add_acc. Qed.

Lemma sum_app l1 l2 : sum (l1 ++ l2) = sum l1 + sum l2.
Proof.
  induction l1 as [|x l1 IH]; simpl; [by rewrite sum_nil|].
  rewrite !sum_cons, IH. lia.
Qed.

Lemma sum_rev l : sum (rev l) = sum l.
Proof.
  induction l as [|x l IH]; simpl; [reflexivity|].
  rewrite sum_app, !sum_cons, sum_nil, IH. lia.
Qed.

Lemma sum_in_range_pos l : Forall in_range l → l ≠ [] → 1 ≤ sum l.
Proof.
  induction 1 as [|x l Hx Hl IH]; intros Hne; [congruence|].
  rewrite sum_cons. unfold in_range in Hx.
  destruct l as [|x' l]; [rewrite sum_nil; lia|].
  assert (1 ≤ sum (x' :: l)) by (apply IH; congruence). lia.
Qed.

Lemma add6_in_range v : in_range (add6 v).
Proof.
  unfold add6, in_range.
  pose proof (Z.mod_pos_bound (v + 6 - 1) 26). lia.
Qed.

(** The loop of variant A adds one output at the end of [out] for each
    value, so a value added at the end of the input adds the output of the
    whole sum. *)
Lemma map_A_loop_snoc xs x tail out :
  map_A_loop (xs ++ [x]) tail out
  = map_A_loop xs tail out ++ [add6 (tail + sum xs + x)].
Proof.
  revert tail out. induction xs as [|x' xs IH]; intros tail out; simpl.
  - rewrite sum_nil.
    by replace (tail + 0 + x) with (tail + x) by lia.
  - rewrite IH, sum_cons.
    by replace (tail + x' + sum xs + x) with (tail + (x' + sum xs) + x) by lia.
Qed.

Lemma map_A_cons v vs :
  map_interpretation_A_tail_plus6_mod26 (v :: vs)
  = add6 (sum (v :: vs)) :: map_interpretation_A_tail_plus6_mod26 vs.
Proof.
  unfold map_interpretation_A_tail_plus6_mod26. simpl rev at 2.
  rewrite map_A_loop_snoc, rev_app_distr. simpl.
  rewrite sum_rev, sum_cons.
  by replace (0 + sum vs + v) with (v + sum vs) by lia.
Qed.

Lemma map_B_loop_snoc xs x tail out :
  map_B_loop (xs ++ [x]) tail out
  = let* out' := map_B_loop xs tail out in
    let* d := digit_sum (tail + sum xs + x) in
    Ok (out' ++ [add6 d]).
Proof.
  revert tail out. induction xs as [|x' xs IH]; intros tail out; simpl.
  - rewrite sum_nil. replace (tail + 0 + x) with (tail + x) by lia.
    by destruct (digit_sum (tail + x)).
  - destruct (digit_sum (tail + x')) as [d|e]; simpl; [|reflexivity].
    rewrite IH, sum_cons.
    by replace (tail + x' + sum xs + x) with (tail + (x' + sum xs) + x) by lia.
Qed.

Lemma map_B_cons v vs :
  map_interpretation_B (v :: vs)
  = let* r := map_interpretation_B vs in
    let* d := digit_sum (sum (v :: vs)) in
    Ok (add6 d :: r).
Proof.
  unfold map_interpretation_B. simpl rev.
  rewrite map_B_loop_snoc, sum_rev, sum_cons.
  replace (0 + sum vs + v) with (v + sum vs) by lia.
  destruct (map_B_loop (rev vs) 0 []) as [out|e]; simpl; [|reflexivity].
  destruct (digit_sum (v + sum vs)) as [d|e]; simpl; [|reflexivity].
  by rewrite rev_app_distr.
Qed.

(** ** [digit_sum] is the sum of the decimal digits *)

Ltac digit_cases r :=
  let Hc := fresh "Hc" in
  assert (Hc : r = 0 ∨ r = 1 ∨ r = 2 ∨ r = 3 ∨ r = 4 ∨ r = 5 ∨ r = 6
               ∨ r = 7 ∨ r = 8 ∨ r = 9) by lia;
  destruct Hc as [->|[->|[->|[->|[->|[->|[->|[->|[->| ->]]]]]]]]].

Lemma sum_digits_revapp d d' :
  sum (uint_digits (Decimal.revapp d d'))
  = sum (uint_digits d) + sum (uint_digits d').
Proof.
  revert d'. induction d; intros d'; simpl; rewrite ?IHd; simpl;
    rewrite ?sum_cons, ?sum_nil; lia.
Qed.

Lemma little_of_to p :
  DecimalPos.Unsigned.of_lu (Pos.to_little_uint p) = N.pos p.
Proof.
  rewrite <- DecimalPos.Unsigned.of_lu_rev. apply DecimalPos.Unsigned.of_to.
Qed.

Lemma little_nztail p :
  DecimalFacts.nztail (Pos.to_little_uint p) = Pos.to_little_uint p.
Proof.
  pose proof (DecimalPos.Unsigned.to_of_lu (Pos.to_little_uint p)) as H.
  rewrite little_of_to in H. simpl in H. unfold DecimalFacts.lnorm in H.
  destruct (DecimalFacts.nztail (Pos.to_little_uint p)) eqn:E; try congruence.
  exfalso. pose proof (little_of_to p) as H'. rewrite H in H'. discriminate.
Qed.

(** The digits of [10 q + r] are the digits of [q] and then [r]. *)
Lemma little_push q r :
  0 ≤ r < 10 →
  Pos.to_little_uint (Z.to_pos (10 * Z.pos q + r))
  = push_digit r (Pos.to_little_uint q).
Proof.
  intros Hr.
  pose proof (DecimalPos.Unsigned.to_of_lu
                (push_digit r (Pos.to_little_uint q))) as H.
  assert (Hof : DecimalPos.Unsigned.of_lu (push_digit r (Pos.to_little_uint q))
                = N.pos (Z.to_pos (10 * Z.pos q + r))).
  { digit_cases r; cbn [push_digit]; rewrite DecimalPos.Unsigned.of_lu_eqn;
      cbn [DecimalPos.Unsigned.hd DecimalPos.Unsigned.tl];
      rewrite little_of_to; lia. }
  rewrite Hof in H. cbn [DecimalPos.Unsigned.to_lu] in H. rewrite H.
  unfold DecimalFacts.lnorm.
  assert (Hnz : DecimalFacts.nztail (push_digit r (Pos.to_little_uint q))
                = push_digit r (Pos.to_little_uint q)).
  { pose proof (little_nztail q) as Hq.
    digit_cases r; cbn [push_digit DecimalFacts.nztail]; rewrite Hq;
      try reflexivity.
    destruct (Pos.to_little_uint q) eqn:E; try reflexivity.
    pose proof (little_of_to q) as H'. rewrite E in H'. discriminate. }
  rewrite Hnz. digit_cases r; reflexivity.
Qed.

Lemma digit_sum_pos p :
  digit_sum (Z.pos p) = Ok (sum (uint_digits (Pos.to_little_uint p))).
Proof.
  unfold digit_sum. cbn [Z.to_int]. unfold Pos.to_uint, Decimal.rev.
  rewrite sum_digits_revapp. cbn [uint_digits]. rewrite sum_nil. f_equal. lia.
Qed.

Lemma sum_digits_push r u :
  0 ≤ r < 10 → sum (uint_digits (push_digit r u)) = r + sum (uint_digits u).
Proof.
  intros Hr. digit_cases r; cbn [push_digit uint_digits]; by rewrite sum_cons.
Qed.

Lemma digit_sum_digit r : 0 ≤ r < 10 → digit_sum r = Ok r.
Proof. intros Hr. digit_cases r; reflexivity. Qed.

Lemma digit_sum_step q r d :
  0 < q → 0 ≤ r < 10 → digit_sum q = Ok d →
  digit_sum (10 * q + r) = Ok (d + r).
Proof.
  intros Hq Hr. destruct q as [|q|q]; try lia.
  rewrite digit_sum_pos. intros [= <-].
  replace (10 * Z.pos q + r) with (Z.pos (Z.to_pos (10 * Z.pos q + r)))
    by (rewrite Z2Pos.id; lia).
  rewrite digit_sum_pos, little_push, sum_digits_push by assumption.
  f_equal. lia.
Qed.

Lemma digit_sum_fuel fuel n :
  0 ≤ n ≤ Z.of_nat fuel → digit_sum n = Ok (decimal_digit_sum_fuel fuel n).
Proof.
  revert n. induction fuel as [|fuel IH]; intros n Hn.
  - replace n with 0 by lia. reflexivity.
  - cbn [decimal_digit_sum_fuel]. destruct (Z.ltb_spec n 10).
    + apply digit_sum_digit. lia.
    + rewrite (Z.div_mod n 10) at 1 by lia.
      rewrite (digit_sum_step (n `div` 10) (n mod 10)
                 (decimal_digit_sum_fuel fuel (n `div` 10))).
      * f_equal. lia.
      * Z.div_mod_to_equations; lia.
      * apply Z.mod_pos_bound. lia.
      * apply IH. Z.div_mod_to_equations; lia.
Qed.

(** The code's [digit_sum], through [str], and the digit sum by division
    agree on every integer that is not negative. *)
Lemma digit_sum_decimal n : 0 ≤ n → digit_sum n = Ok (decimal_digit_sum n).
Proof. intros Hn. apply digit_sum_fuel. lia. Qed.

Lemma digit_sum_nonneg n : 0 ≤ n → ∃ d, digit_sum n = Ok d.
Proof.
  intros Hn. unfold digit_sum. destruct n as [|p|p]; simpl; eauto. lia.
Qed.

Lemma digit_sum_negative n : n < 0 → digit_sum n = Raise ValueError.
Proof. intros Hn. destruct n as [|p|p]; try lia. reflexivity. Qed.

Lemma map_A_length vs :
  length (map_interpretation_A_tail_plus6_mod26 vs) = length vs.
Proof.
  induction vs as [|v vs IH]; [reflexivity|]. rewrite map_A_cons. simpl. lia.
Qed.

Lemma map_A_lookup vs i :
  (i < length vs)%nat →
  map_interpretation_A_tail_plus6_mod26 vs !! i = Some (add6 (tail_sum vs i)).
Proof.
  revert i. induction vs as [|v vs IH]; intros i Hi; simpl in Hi; [lia|].
  rewrite map_A_cons. destruct i as [|i]; [reflexivity|].
  simpl. apply IH. lia.
Qed.

Lemma map_A_in_range vs :
  Forall in_range (map_interpretation_A_tail_plus6_mod26 vs).
Proof.
  induction vs as [|v vs IH]; [constructor|].
  rewrite map_A_cons. constructor; [apply add6_in_range | exact IH].
Qed.

(** Variant B returns when no tail sum is negative; for a value sequence
    every tail sum is at least 1. *)
Lemma map_B_spec vs :
  Forall in_range vs →
  ∃ out, map_interpretation_B vs = Ok out
         ∧ length out = length vs
         ∧ Forall in_range out
         ∧ ∀ i, (i < length vs)%nat →
             digit_sum (tail_sum vs i) = Ok (decimal_digit_sum (tail_sum vs i))
             ∧ out !! i = Some (add6 (decimal_digit_sum (tail_sum vs i))).
Proof.
  induction 1 as [|v vs Hv Hvs (out & Hout & Hlen & Hr & Hi)].
  - exists []. repeat split; [constructor|..]; simpl in *; lia.
  - assert (Hd : digit_sum (sum (v :: vs))
                 = Ok (decimal_digit_sum (sum (v :: vs)))).
    { apply digit_sum_decimal.
      assert (1 ≤ sum (v :: vs)); [|lia].
      apply sum_in_range_pos; [by constructor | congruence]. }
    exists (add6 (decimal_digit_sum (sum (v :: vs))) :: out).
    rewrite map_B_cons, Hout. cbn [bind].
    rewrite Hd. cbn [bind]. split; [reflexivity|].
    split; [simpl; lia|]. split; [constructor; [apply add6_in_range|exact Hr]|].
    intros [|i] Hlt.
    + split; [exact Hd | reflexivity].
    + simpl in Hlt. apply Hi. lia.
Qed.

End Forward.

(** C5: for a value sequence [v] of length n, each forward transform returns
    a sequence of length n whose i-th element is
    [((reducer(T_i) + 6 - 1) mod 26) + 1], with [T_i] the sum of [v] from
    position i to the end, the reducer being the identity for variant A and
    the sum of the decimal digits for variant B (which is what [digit_sum]
    returns on [T_i]); every output is in [1,26], and position i of the
    output belongs to position i of the input. *)
Theorem forward_transform_spec (v : list Z) :
  Forall in_range v →
  ∃ outB,
    map_interpretation_B v = Ok outB
    ∧ length (map_interpretation_A_tail_plus6_mod26 v) = length v
    ∧ length outB = length v
    ∧ (∀ i, (i < length v)%nat →
         map_interpretation_A_tail_plus6_mod26 v !! i
         = Some (((tail_sum v i + 6 - 1) mod 26) + 1)
         ∧ digit_sum (tail_sum v i) = Ok (decimal_digit_sum (tail_sum v i))
         ∧ outB !! i
           = Some (((decimal_digit_sum (tail_sum v i) + 6 - 1) mod 26) + 1))
    ∧ Forall in_range (map_interpretation_A_tail_plus6_mod26 v)
    ∧ Forall in_range outB.
Proof.
  intros Hv. destruct (map_B_spec v Hv) as (outB & HB & Hlen & Hr & Hi).
  exists outB. split; [exact HB|]. split; [apply map_A_length|].
  split; [exact Hlen|]. split; [|split; [apply map_A_in_range | exact Hr]].
  intros i Hlt. split; [by apply map_A_lookup | by apply Hi].
Qed.

Lemma forward_transform_spec_witness :
  ∃ outB,
    map_interpretation_B [7; 9; 26] = Ok outB
    ∧ length (map_interpretation_A_tail_plus6_mod26 [7; 9; 26]) = 3%nat
    ∧ length outB = 3%nat
    ∧ (∀ i, (i < 3)%nat →
         map_interpretation_A_tail_plus6_mod26 [7; 9; 26] !! i
         = Some (((tail_sum [7; 9; 26] i + 6 - 1) mod 26) + 1)
         ∧ digit_sum (tail_sum [7; 9; 26] i)
           = Ok (decimal_digit_sum (tail_sum [7; 9; 26] i))
         ∧ outB !! i
           = Some (((decimal_digit_sum (tail_sum [7; 9; 26] i) + 6 - 1)
                    mod 26) + 1))
    ∧ Forall in_range (map_interpretation_A_tail_plus6_mod26 [7; 9; 26])
    ∧ Forall in_range outB.
Proof.
  apply (forward_transform_spec [7; 9; 26]).
  apply (bool_decide_unpack _). vm_compute. reflexivity.
Defined.

Example forward_A_example :
  map_interpretation_A_tail_plus6_mod26 [7; 9; 26; 19; 11; 25; 15; 14]
  = [2; 21; 12; 12; 19; 8; 9; 20].
Proof. vm_compute. reflexivity. Qed.

Example decimal_digit_sum_example : decimal_digit_sum 199 = 19.
Proof. vm_compute. reflexivity. Qed.

(** * Variant A: the closed-form reconstruction *)

Ltac mod26 :=
  unfold in_range, add6, last_T, window_start in *; cbv zeta;
  repeat match goal with
         | |- context [?a =? ?b] => destruct (Z.eqb_spec a b)
         end;
  cbn [negb]; Z.div_mod_to_equations; lia.

Section VariantA.

Lemma last_T_in_range y : in_range (last_T y).
Proof. mod26. Qed.

Lemma add6_last_T y : in_range y → add6 (last_T y) = y.
Proof. mod26. Qed.

Lemma last_T_add6 x : in_range x → last_T (add6 x) = x.
Proof. mod26. Qed.

Lemma window_start_bounds y T : T + 1 ≤ window_start y T ≤ T + 26.
Proof. mod26. Qed.

Lemma window_start_residue y T : window_start y T mod 26 = (y - 6) mod 26.
Proof. mod26. Qed.

Lemma window_start_unique y T t :
  T + 1 ≤ t ≤ T + 26 → t mod 26 = (y - 6) mod 26 → t = window_start y T.
Proof. mod26. Qed.

Lemma add6_window_start y T : in_range y → add6 (window_start y T) = y.
Proof. mod26. Qed.

Lemma window_start_add6 x T :
  in_range x → window_start (add6 (T + x)) T = T + x.
Proof. mod26. Qed.

(** The [candidates] of one round: the range holds one number. *)
Lemma candidates_singleton y T : loop_candidates y T = [window_start y T].
Proof.
  pose proof (window_start_bounds y T) as Hb.
  unfold loop_candidates. cbv zeta. fold (window_start y T).
  unfold range3.
  replace ((T + 26 + 1 - window_start y T + 26 - 1) `div` 26) with 1
    by (Z.div_mod_to_equations; lia).
  simpl. by rewrite Z.add_0_r.
Qed.

Lemma getitem_Ok {A} (l : list A) i a : l !! i = Some a → getitem l i = Ok a.
Proof. unfold getitem. by intros ->. Qed.

Lemma getitem_int_middle (pre : list (option Z)) k t Tr :
  length pre = k → getitem_int (pre ++ Some t :: Tr) k = Ok t.
Proof.
  intros <-. unfold getitem_int.
  rewrite (getitem_Ok _ _ (Some t)); [reflexivity|].
  by rewrite list_lookup_middle.
Qed.

Lemma setitem_last_none {A} (k : nat) (v : A) (r : list (option A)) :
  setitem (replicate (S k) None ++ r) k (Some v)
  = Ok (replicate k None ++ Some v :: r).
Proof.
  unfold setitem. rewrite decide_True.
  2:{ rewrite length_app, length_replicate. lia. }
  f_equal. rewrite replicate_S_end, <- app_assoc. simpl.
  rewrite insert_app_r_alt; rewrite length_replicate; [|lia].
  by rewrite Nat.sub_diag.
Qed.

(** The loop fills [T] and [x] from right to left with the chain of
    window starts and never leaves early. *)
Lemma reconstruct_A_loop_spec target k T_next Tr xr :
  (k ≤ length target)%nat →
  reconstruct_A_loop target k
    (replicate k None ++ Some T_next :: Tr) (replicate k None ++ xr)
  = Ok (Some ((Some <$> rev (chain_A (rev (take k target)) T_next)) ++ xr)).
Proof.
  revert T_next Tr xr. induction k as [|i IH]; intros T_next Tr xr Hk.
  - reflexivity.
  - destruct (lookup_lt_is_Some_2 target i) as [yi Hyi]; [lia|].
    cbn [reconstruct_A_loop]. rewrite (getitem_Ok _ _ _ Hyi). cbn [bind].
    replace (i + 1)%nat with (S i) by lia.
    rewrite getitem_int_middle by apply length_replicate.
    cbn [bind]. cbv zeta.
    rewrite candidates_singleton. cbn [length Nat.eqb negb].
    rewrite (getitem_Ok [window_start yi T_next] 0%nat _ eq_refl). cbn [bind].
    rewrite setitem_last_none. cbn [bind].
    change (replicate i None ++ Some (window_start yi T_next) :: Some T_next :: Tr)
      with (replicate i None ++ [Some (window_start yi T_next)] ++ Some T_next :: Tr).
    rewrite app_assoc, getitem_int_middle
      by (rewrite length_app, length_replicate; simpl; lia).
    rewrite <- app_assoc. cbn [bind app].
    pose proof (window_start_bounds yi T_next) as Hb.
    destruct (Z.leb_spec 1 (window_start yi T_next - T_next)); [|lia].
    destruct (Z.leb_spec (window_start yi T_next - T_next) 26); [|lia].
    cbn [andb negb]. rewrite setitem_last_none. cbn [bind].
    rewrite IH by lia.
    rewrite (take_S_r _ _ _ Hyi), rev_app_distr. cbn [rev app chain_A].
    rewrite fmap_app, <- app_assoc. reflexivity.
Qed.

Lemma reconstruct_A_spec front yn :
  reconstruct_interpretation_A (front ++ [yn])
  = Ok (Some (Some <$> rev (last_T yn :: chain_A (rev front) (last_T yn)))).
Proof.
  unfold reconstruct_interpretation_A.
  rewrite length_app, Nat.add_1_r. cbv zeta.
  unfold getitem_last. rewrite last_snoc. cbn [bind].
  fold (last_T yn).
  pose proof (last_T_in_range yn) as Hr. unfold in_range in Hr.
  destruct (Z.leb_spec 1 (last_T yn)); [|lia].
  destruct (Z.leb_spec (last_T yn) 26); [|lia].
  cbn [andb negb].
  assert (Hset : setitem_last (replicate (S (length front)) None)
                   (Some (last_T yn))
                 = Ok (replicate (length front) None ++ [Some (last_T yn)])).
  { unfold setitem_last. cbn [replicate]. f_equal.
    change (None :: replicate (length front) None)
      with (replicate (S (length front)) (@None Z)).
    rewrite length_replicate. cbn [Nat.pred].
    rewrite replicate_S_end, insert_app_r_alt;
      rewrite length_replicate; [|lia].
    by rewrite Nat.sub_diag. }
  rewrite Hset. cbn [bind].
  replace (S (length front) - 1)%nat with (length front) by lia.
  rewrite reconstruct_A_loop_spec by (rewrite length_app; lia).
  rewrite take_app_length. cbn [rev]. by rewrite fmap_app.
Qed.

Lemma chain_A_in_range ys T : Forall in_range (chain_A ys T).
Proof.
  revert T. induction ys as [|y ys IH]; intros T; simpl; constructor.
  - pose proof (window_start_bounds y T). unfold in_range. lia.
  - apply IH.
Qed.

Lemma chain_A_length ys T : length (chain_A ys T) = length ys.
Proof. revert T. induction ys as [|y ys IH]; intros T; simpl; auto. Qed.

Lemma map_A_loop_outputs xs tail out :
  map_A_loop xs tail out = out ++ outputs_A xs tail.
Proof.
  revert tail out. induction xs as [|x xs IH]; intros tail out; simpl.
  - by rewrite app_nil_r.
  - rewrite IH, <- app_assoc. reflexivity.
Qed.

Lemma map_A_outputs vs :
  map_interpretation_A_tail_plus6_mod26 vs = rev (outputs_A (rev vs) 0).
Proof.
  unfold map_interpretation_A_tail_plus6_mod26.
  by rewrite map_A_loop_outputs.
Qed.

(** Forward after backward, one chain at a time. *)
Lemma outputs_chain ys T :
  Forall in_range ys → outputs_A (chain_A ys T) T = ys.
Proof.
  intros Hys. revert T. induction Hys as [|y ys Hy _ IH]; intros T; simpl.
  - reflexivity.
  - replace (T + (window_start y T - T)) with (window_start y T) by lia.
    by rewrite add6_window_start, IH.
Qed.

(** Backward after forward. *)
Lemma chain_outputs xs T :
  Forall in_range xs → chain_A (outputs_A xs T) T = xs.
Proof.
  intros Hxs. revert T. induction Hxs as [|x xs Hx _ IH]; intros T; simpl.
  - reflexivity.
  - rewrite window_start_add6 by assumption.
    rewrite IH. f_equal. lia.
Qed.

Lemma map_A_reconstructed front yn :
  Forall in_range (front ++ [yn]) →
  map_interpretation_A_tail_plus6_mod26
    (rev (last_T yn :: chain_A (rev front) (last_T yn)))
  = front ++ [yn].
Proof.
  intros Hr. apply Forall_app in Hr as [Hfront Hyn].
  inversion Hyn as [|? ? Hy _]; subst.
  rewrite map_A_outputs, rev_involutive. cbn [outputs_A].
  rewrite Z.add_0_l, add6_last_T by assumption.
  rewrite outputs_chain by (by apply Forall_rev).
  cbn [rev]. by rewrite rev_involutive.
Qed.

Lemma reconstructed_map_A vs x :
  Forall in_range (vs ++ [x]) →
  ∃ front yn,
    map_interpretation_A_tail_plus6_mod26 (vs ++ [x]) = front ++ [yn]
    ∧ rev (last_T yn :: chain_A (rev front) (last_T yn)) = vs ++ [x].
Proof.
  intros Hr. apply Forall_app in Hr as [Hvs Hx].
  inversion Hx as [|? ? Hx' _]; subst.
  exists (rev (outputs_A (rev vs) x)), (add6 x). split.
  - rewrite map_A_outputs, rev_app_distr. cbn [rev app outputs_A].
    by rewrite Z.add_0_l.
  - rewrite rev_involutive, last_T_add6 by assumption.
    rewrite chain_outputs by (by apply Forall_rev).
    cbn [rev]. by rewrite rev_involutive.
Qed.

(** A non-empty list ends with an element. *)
Lemma nonempty_snoc {A} (l : list A) : l ≠ [] → ∃ front a, l = front ++ [a].
Proof.
  intros Hne. destruct (rev l) as [|a r] eqn:Hrev.
  - apply (f_equal (@rev A)) in Hrev. rewrite rev_involutive in Hrev.
    contradiction.
  - exists (rev r), a. apply (f_equal (@rev A)) in Hrev.
    by rewrite rev_involutive in Hrev.
Qed.

End VariantA.

(** C4: for a target of length at least 1 with every value in [1,26],
    [reconstruct_interpretation_A] does not return [None] (and raises
    nothing): it returns a list of values in [1,26].  The tail sum of the
    last position is in [1,26]; in every round of the loop the window
    [T_next + 1, T_next + 26] holds exactly one integer of the required
    residue modulo 26, the list of candidates is that one integer, and the
    derived value is in [1,26]. *)
Theorem reconstruct_A_never_None (target : list Z) :
  Forall in_range target → target ≠ [] →
  (∃ xs, reconstruct_interpretation_A target = Ok (Some (Some <$> xs))
         ∧ length xs = length target ∧ Forall in_range xs)
  ∧ (∀ yn, in_range (last_T yn))
  ∧ (∀ yi T_next,
       (∃ t, loop_candidates yi T_next = [t]
             ∧ in_range (t - T_next)
             ∧ ∀ t', T_next + 1 ≤ t' ≤ T_next + 26 →
                     (t' mod 26 = (yi - 6) mod 26 ↔ t' = t))).
Proof.
  intros _ Hne. split; [|split].
  - destruct (nonempty_snoc target Hne) as (front & yn & ->).
    eexists. split; [apply reconstruct_A_spec|]. split.
    + rewrite length_rev, length_app. cbn [length].
      rewrite chain_A_length, length_rev. lia.
    + apply Forall_rev. constructor;
        [apply last_T_in_range | apply chain_A_in_range].
  - apply last_T_in_range.
  - intros yi T_next. exists (window_start yi T_next).
    split; [apply candidates_singleton|]. split.
    + pose proof (window_start_bounds yi T_next). unfold in_range. lia.
    + intros t' Ht'. split.
      * by apply window_start_unique.
      * intros ->. apply window_start_residue.
Qed.

Lemma reconstruct_A_never_None_witness :
  (∃ xs, reconstruct_interpretation_A [2; 21; 12; 12; 19; 8; 9; 20]
         = Ok (Some (Some <$> xs))
         ∧ length xs = 8%nat ∧ Forall in_range xs)
  ∧ (∀ yn, in_range (last_T yn))
  ∧ (∀ yi T_next,
       (∃ t, loop_candidates yi T_next = [t]
             ∧ in_range (t - T_next)
             ∧ ∀ t', T_next + 1 ≤ t' ≤ T_next + 26 →
                     (t' mod 26 = (yi - 6) mod 26 ↔ t' = t))).
Proof.
  apply (reconstruct_A_never_None [2; 21; 12; 12; 19; 8; 9; 20]).
  - apply (bool_decide_unpack _). vm_compute. reflexivity.
  - discriminate.
Defined.

(** C3: for a target of length at least 1 with every value in [1,26],
    whenever [reconstruct_interpretation_A] returns a sequence [x] (and it
    does return one), [x] is a list of integers and
    [map_interpretation_A_tail_plus6_mod26(x) == target]. *)
Theorem reconstruct_A_sound (target : list Z) (x : list (option Z)) :
  Forall in_range target → target ≠ [] →
  reconstruct_interpretation_A target = Ok (Some x) →
  ∃ xs, x = Some <$> xs
        ∧ map_interpretation_A_tail_plus6_mod26 xs = target.
Proof.
  intros Hr Hne Hx.
  destruct (nonempty_snoc target Hne) as (front & yn & ->).
  rewrite reconstruct_A_spec in Hx. injection Hx as <-.
  eexists. split; [reflexivity|]. by apply map_A_reconstructed.
Qed.

Lemma reconstruct_A_sound_witness :
  ∃ xs, (Some <$> [7; 9; 26; 19; 11; 25; 15; 14]) = Some <$> xs
        ∧ map_interpretation_A_tail_plus6_mod26 xs
          = [2; 21; 12; 12; 19; 8; 9; 20].
Proof.
  apply (reconstruct_A_sound [2; 21; 12; 12; 19; 8; 9; 20]).
  - apply (bool_decide_unpack _). vm_compute. reflexivity.
  - discriminate.
  - vm_compute. reflexivity.
Defined.

(** C2: for every word W of length at least 1 over the 26 letters,
    [reconstruct_interpretation_A(map_interpretation_A_tail_plus6_mod26(
    from_word(W))) == from_word(W)]. *)
Theorem reconstruct_A_of_forward (W : string) :
  W ≠ ""%string → Forall recognized (list_ascii_of_string W) →
  ∃ v, from_word W = Ok v
       ∧ reconstruct_interpretation_A (map_interpretation_A_tail_plus6_mod26 v)
         = Ok (Some (Some <$> v)).
Proof.
  intros Hne HW.
  destruct (mapM_val_letter _ HW) as (v & Hv & Hr & _).
  exists v. split; [exact Hv|].
  assert (Hv_ne : v ≠ []).
  { intros ->. apply mapM_Ok in Hv. inversion Hv as [Hnil|]. apply Hne.
    by rewrite <- (string_of_list_ascii_of_string W), <- Hnil. }
  destruct (nonempty_snoc v Hv_ne) as (vs & x & ->).
  destruct (reconstructed_map_A vs x Hr) as (front & yn & -> & <-).
  apply reconstruct_A_spec.
Qed.

Lemma reconstruct_A_of_forward_witness :
  ∃ v, from_word "GIZSKYON" = Ok v
       ∧ reconstruct_interpretation_A (map_interpretation_A_tail_plus6_mod26 v)
         = Ok (Some (Some <$> v)).
Proof.
  apply (reconstruct_A_of_forward "GIZSKYON").
  - discriminate.
  - apply (bool_decide_unpack _). vm_compute. reflexivity.
Defined.

(** C10: the forward transform of variant A maps the word "A", of value
    sequence [1], to the value ((1+5) mod 26)+1 = 7, the word "G"; and
    [reconstruct_interpretation_A] on the values [7] of "G" returns [1],
    the word "A". *)
Theorem single_letter_boundary :
  from_word "A" = Ok [1]
  ∧ map_interpretation_A_tail_plus6_mod26 [1] = [((1 + 5) mod 26) + 1]
  ∧ ((1 + 5) mod 26) + 1 = 7
  ∧ to_word [7] = Ok "G"%string
  ∧ map_to_word_interpretation_A "A" = Ok "G"%string
  ∧ from_word "G" = Ok [7]
  ∧ reconstruct_interpretation_A [7] = Ok (Some [Some 1])
  ∧ to_word [1] = Ok "A"%string.
Proof. repeat split; vm_compute; reflexivity. Qed.

(** * Variant B: the backtracking search *)

Section VariantB.

Variable target_vals : list Z.

(** ** The accumulator *)

Lemma acc_pop_append xi st :
  acc_pop (acc_append xi st) = Ok st.
Proof.
  destruct st as [ss acc]. unfold acc_pop, acc_append. simpl.
  rewrite removelast_last. by destruct acc.
Qed.

Lemma acc_pop_restores xi acc st st' :
  acc_letters st = acc ++ [xi] → acc_pop st = Ok st' →
  acc_letters st' = acc.
Proof.
  destruct st as [ss a]. unfold acc_pop. simpl. intros ->.
  rewrite removelast_last.
  destruct (acc ++ [xi]) eqn:E; [by destruct acc|]. by intros [= <-].
Qed.

(** A loop whose rounds keep [acc_letters] keeps it. *)
Lemma for_each_keeps_acc (l : list Z) body st st' :
  (∀ Ti s s', body Ti s = Ok s' → acc_letters s' = acc_letters s) →
  for_each l body st = Ok st' → acc_letters st' = acc_letters st.
Proof.
  intros Hbody. revert st. induction l as [|Ti l IH]; intros st; simpl.
  - by intros [= <-].
  - destruct (body Ti st) as [s1|e] eqn:Hb; simpl; [|discriminate].
    intros Hl. rewrite (IH _ Hl). by eapply Hbody.
Qed.

(** Every call of [backtrack] that returns leaves [acc_letters] as it
    found it. *)
Lemma backtrack_keeps_acc k T_next st st' :
  backtrack target_vals k T_next st = Ok st' →
  acc_letters st' = acc_letters st.
Proof.
  revert T_next st st'. induction k as [|i IH]; intros T_next st st'.
  - simpl. by intros [= <-].
  - cbn [backtrack]. cbv zeta.
    destruct (getitem target_vals i) as [y|e]; cbn [bind]; [|discriminate].
    apply for_each_keeps_acc. clear st st'. intros Ti s s'.
    destruct (digit_sum Ti) as [d|e]; cbn [bind]; [|discriminate].
    destruct (_ =? y); [|by intros [= <-]].
    destruct (_ && _); [|by intros [= <-]].
    destruct (backtrack target_vals i Ti (acc_append (Ti - T_next) s))
      as [s1|e] eqn:Hs1; cbn [bind]; [|discriminate].
    apply IH in Hs1. intros Hpop.
    exact (acc_pop_restores (Ti - T_next) (acc_letters s) s1 s' Hs1 Hpop).
Qed.

(** ** The search as a list *)

(** A loop whose round for [Ti] records the solutions [g Ti] behind the
    accumulator records those of the whole range. *)
Lemma for_each_collect (l : list Z) body (g : Z → list (list Z)) st :
  (∀ Ti s, Ti ∈ l →
     body Ti s
     = Ok {| sols := sols s
                     ++ ((fun xs => rev (acc_letters s ++ xs)) <$> g Ti);
             acc_letters := acc_letters s |}) →
  for_each l body st
  = Ok {| sols := sols st
                  ++ ((fun xs => rev (acc_letters st ++ xs)) <$> (l ≫= g));
          acc_letters := acc_letters st |}.
Proof.
  revert st. induction l as [|Ti l IH]; intros st Hbody; simpl.
  - rewrite app_nil_r. by destruct st.
  - rewrite Hbody by left. cbn [bind].
    rewrite IH by (intros; apply Hbody; by right).
    cbn [sols acc_letters]. by rewrite fmap_app, app_assoc.
Qed.

Lemma matches_B_digit_sum t y :
  0 ≤ t →
  ∃ d, digit_sum t = Ok d ∧ matches_B t y = (((d + 6 - 1) mod 26) + 1 =? y).
Proof.
  intros Ht. destruct (digit_sum_nonneg t Ht) as [d Hd].
  exists d. unfold matches_B. by rewrite Hd.
Qed.

Lemma backtrack_spec k T_next st :
  (k ≤ length target_vals)%nat → 0 ≤ T_next →
  backtrack target_vals k T_next st
  = Ok {| sols := sols st
                  ++ ((fun xs => rev (acc_letters st ++ xs))
                        <$> enum_B (rev (take k target_vals)) T_next);
          acc_letters := acc_letters st |}.
Proof.
  revert T_next st. induction k as [|i IH]; intros T_next st Hk HT.
  - simpl. unfold record_solution. by rewrite app_nil_r.
  - destruct (lookup_lt_is_Some_2 target_vals i) as [y Hy]; [lia|].
    cbn [backtrack]. cbv zeta. rewrite (getitem_Ok _ _ _ Hy). cbn [bind].
    rewrite (take_S_r _ _ _ Hy), rev_app_distr. cbn [rev app enum_B].
    unfold range2. replace (T_next + 26 + 1 - (T_next + 1)) with 26 by lia.
    apply for_each_collect. intros Ti s HTi.
    apply elem_of_seqZ in HTi.
    destruct (matches_B_digit_sum Ti y) as (d & -> & ->); [lia|].
    cbn [bind]. destruct (_ =? y).
    + destruct (Z.leb_spec 1 (Ti - T_next)); [|lia].
      destruct (Z.leb_spec (Ti - T_next) 26); [|lia].
      cbn [andb]. rewrite IH by lia. cbn [bind].
      unfold acc_pop, acc_append. cbn [sols acc_letters].
      rewrite removelast_last.
      destruct (acc_letters s ++ [Ti - T_next]) eqn:E;
        [by destruct (acc_letters s)|].
      rewrite <- E. do 3 f_equal. rewrite <- list_fmap_compose.
      apply list_fmap_ext. intros _ xs _. simpl.
      by rewrite <- app_assoc.
    + simpl. rewrite app_nil_r. by destruct s.
Qed.

(** The comprehension of [last_candidates] is a filter when the test
    raises nothing. *)
Lemma filterM_filter {A} (p : A → res bool) (q : A → bool) l :
  (∀ a, a ∈ l → p a = Ok (q a)) →
  filterM p l = Ok (filter (fun a => q a = true) l).
Proof.
  induction l as [|a l IH]; intros Hp; simpl; [reflexivity|].
  rewrite Hp by left. cbn [bind]. rewrite IH by (intros; apply Hp; by right).
  cbn [bind]. rewrite filter_cons.
  destruct (q a); case_decide; congruence.
Qed.

(** The loop over [last_candidates], whose state is [sols] alone. *)
Lemma for_each_append (l : list Z) body (h : Z → list (list Z)) ss :
  (∀ Tn s, Tn ∈ l → body Tn s = Ok (s ++ h Tn)) →
  for_each l body ss = Ok (ss ++ (l ≫= h)).
Proof.
  revert ss. induction l as [|Tn l IH]; intros ss Hbody; simpl.
  - by rewrite app_nil_r.
  - rewrite Hbody by left. cbn [bind].
    rewrite IH by (intros; apply Hbody; by right). by rewrite app_assoc.
Qed.

(** The candidates of the last position and their searches are the first
    level of the same tree, from the tail sum 0. *)
Lemma last_level (l : list Z) yn ys :
  filter (fun t => matches_B t yn = true) l
    ≫= (fun Tn => (fun xs => rev ([Tn] ++ xs)) <$> enum_B ys Tn)
  = @rev Z <$> (l ≫= (fun Ti => if matches_B Ti yn
                              then cons (Ti - 0) <$> enum_B ys Ti else [])).
Proof.
  induction l as [|t l IH]; [reflexivity|].
  rewrite filter_cons, !bind_cons, fmap_app, <- IH.
  destruct (matches_B t yn).
  - rewrite decide_True by reflexivity. rewrite bind_cons. f_equal.
    rewrite <- list_fmap_compose. apply list_fmap_ext. intros _ xs _. simpl.
    by rewrite Z.sub_0_r.
  - by rewrite decide_False by discriminate.
Qed.

End VariantB.

Section VariantBResults.

Lemma reconstruct_B_spec front yn :
  reconstruct_interpretation_B_all (front ++ [yn])
  = Ok (@rev Z <$> enum_B (rev (front ++ [yn])) 0).
Proof.
  unfold reconstruct_interpretation_B_all. cbv zeta.
  unfold getitem_last. rewrite last_snoc. cbn [bind].
  change (range2 1 (26 + 1)) with (seqZ 1 26).
  rewrite (filterM_filter _ (fun t => matches_B t yn)).
  2:{ intros t Ht%elem_of_seqZ.
      destruct (matches_B_digit_sum t yn) as (d & -> & ->); [lia|]. done. }
  cbn [bind].
  rewrite (for_each_append _ _
             (fun Tn => (fun xs => rev ([Tn] ++ xs))
                          <$> enum_B (rev front) Tn)).
  2:{ intros Tn ss [_ HTn%elem_of_seqZ]%list_elem_of_filter.
      rewrite backtrack_spec; [|rewrite length_app; simpl; lia|lia].
      cbn [bind sols acc_letters].
      rewrite length_app, Nat.add_1_r.
      replace (S (length front) - 1)%nat with (length front) by lia.
      by rewrite take_app_length. }
  rewrite app_nil_l, last_level, rev_app_distr. reflexivity.
Qed.

Lemma map_B_loop_outputs xs tail out :
  map_B_loop xs tail out = let* r := outputs_B xs tail in Ok (out ++ r).
Proof.
  revert tail out. induction xs as [|x xs IH]; intros tail out; simpl.
  - by rewrite app_nil_r.
  - destruct (digit_sum (tail + x)) as [d|e]; cbn [bind]; [|reflexivity].
    rewrite IH. destruct (outputs_B xs (tail + x)); cbn [bind]; [|reflexivity].
    by rewrite <- app_assoc.
Qed.

Lemma map_B_outputs vs :
  map_interpretation_B vs = let* r := outputs_B (rev vs) 0 in Ok (rev r).
Proof.
  unfold map_interpretation_B. rewrite map_B_loop_outputs.
  by destruct (outputs_B (rev vs) 0).
Qed.

(** The tree holds exactly the sequences of values in [1,26] whose outputs
    above [T] are the target values. *)
Lemma elem_of_enum_B ys T xs :
  0 ≤ T →
  xs ∈ enum_B ys T ↔ Forall in_range xs ∧ outputs_B xs T = Ok ys.
Proof.
  revert T xs. induction ys as [|y ys IH]; intros T xs HT.
  - cbn [enum_B]. rewrite list_elem_of_singleton. split.
    + intros ->. split; [constructor|reflexivity].
    + intros [_ Hout]. destruct xs as [|x xs]; [reflexivity|].
      simpl in Hout. destruct (digit_sum (T + x)); [|discriminate].
      cbn [bind] in Hout. destruct (outputs_B xs (T + x)); discriminate.
  - cbn [enum_B]. rewrite list_elem_of_bind. split.
    + intros (Ti & Hxs & HTi%elem_of_seqZ).
      destruct (matches_B_digit_sum Ti y) as (d & Hd & Hm); [lia|].
      rewrite Hm in Hxs. destruct (Z.eqb_spec (((d + 6 - 1) mod 26) + 1) y)
        as [Hy|]; [|by apply not_elem_of_nil in Hxs].
      apply list_elem_of_fmap in Hxs as (xs' & -> & Hxs').
      apply IH in Hxs' as [Hr Hout]; [|lia]. split.
      * constructor; [unfold in_range; lia | exact Hr].
      * cbn [outputs_B]. replace (T + (Ti - T)) with Ti by lia.
        rewrite Hd, Hout. cbn [bind]. unfold add6. by rewrite Hy.
    + intros [Hr Hout]. destruct xs as [|x xs]; [discriminate|].
      inversion Hr as [|? ? Hx Hxs]; subst. cbn [outputs_B] in Hout.
      destruct (digit_sum (T + x)) as [d|] eqn:Hd; [|discriminate].
      cbn [bind] in Hout.
      destruct (outputs_B xs (T + x)) as [r|] eqn:Hr'; [|discriminate].
      injection Hout as Hy <-. unfold in_range in Hx.
      exists (T + x). split; [|apply elem_of_seqZ; lia].
      unfold matches_B. rewrite Hd. fold (add6 d). rewrite Hy, Z.eqb_refl.
      apply list_elem_of_fmap. exists xs. split; [f_equal; lia|].
      apply IH; [lia|]. by split.
Qed.

#[local] Instance rev_inj {A} : Inj (=) (=) (@rev A).
Proof.
  intros l1 l2 H. apply (f_equal (@rev A)) in H.
  by rewrite !rev_involutive in H.
Qed.

Lemma NoDup_enum_B ys T : NoDup (enum_B ys T).
Proof.
  revert T. induction ys as [|y ys IH]; intros T; cbn [enum_B].
  - apply NoDup_singleton.
  - apply NoDup_bind; [| |apply NoDup_seqZ].
    + intros t1 t2 xs _ _ H1 H2.
      destruct (matches_B t1 y); [|by apply not_elem_of_nil in H1].
      destruct (matches_B t2 y); [|by apply not_elem_of_nil in H2].
      apply list_elem_of_fmap in H1 as (xs1 & -> & _).
      apply list_elem_of_fmap in H2 as (xs2 & [= Ht _] & _). lia.
    + intros t _. destruct (matches_B t y); [|constructor].
      apply NoDup_fmap_2; [|apply IH]. by intros ?? [= ->].
Qed.

Lemma NoDup_rev_enum_B ys T : NoDup (@rev Z <$> enum_B ys T).
Proof. apply NoDup_fmap_2; [apply _ | apply NoDup_enum_B]. Qed.

(** What the search returns for a non-empty target. *)
Lemma elem_of_reconstruct_B front yn s :
  Forall in_range s →
  s ∈ @rev Z <$> enum_B (rev (front ++ [yn])) 0
  ↔ map_interpretation_B s = Ok (front ++ [yn]).
Proof.
  intros Hs. rewrite map_B_outputs.
  rewrite <- (rev_involutive s) at 1.
  rewrite (list_elem_of_fmap_inj (@rev Z)).
  rewrite elem_of_enum_B by lia. split.
  - intros [_ ->]. cbn [bind]. by rewrite rev_involutive.
  - destruct (outputs_B (rev s) 0) as [r|]; cbn [bind]; [|discriminate].
    intros [= <-]. rewrite rev_involutive. split; [by apply Forall_rev|done].
Qed.

End VariantBResults.

(** C8: a call [backtrack(i, T_next, acc_letters)] that returns leaves
    [acc_letters] equal to its value at entry; after a recursive call
    returns, the [pop] removes the value that the [append] before the call
    added; and the calls made during [reconstruct_interpretation_B_all]
    (an index below the length of the target, a tail sum that is not
    negative) do return. *)
Theorem backtrack_restores_accumulator
    (target_vals : list Z) (k : nat) (T_next : Z) (st : search_state) :
  (∀ st', backtrack target_vals k T_next st = Ok st' →
          acc_letters st' = acc_letters st)
  ∧ (∀ xi st',
       backtrack target_vals k T_next (acc_append xi st) = Ok st' →
       ∃ st'', acc_pop st' = Ok st'' ∧ acc_letters st'' = acc_letters st)
  ∧ ((k ≤ length target_vals)%nat → 0 ≤ T_next →
     ∃ st', backtrack target_vals k T_next st = Ok st').
Proof.
  split; [|split].
  - intros st'. apply backtrack_keeps_acc.
  - intros xi st' Hcall. apply backtrack_keeps_acc in Hcall.
    destruct st' as [ss acc]. cbn [acc_letters acc_append] in Hcall.
    subst acc. unfold acc_pop. cbn [acc_letters sols].
    rewrite removelast_last.
    destruct (acc_letters st ++ [xi]) eqn:E; [by destruct (acc_letters st)|].
    by eexists.
  - intros Hk HT. rewrite backtrack_spec by assumption. by eexists.
Qed.

(** C1, as stated, fails at the empty target: the empty sequence is mapped
    to the empty target by variant B, but the search raises [IndexError]
    on [target_vals[-1]] and returns no list. *)
Lemma reconstruct_B_empty_target :
  Forall in_range [] ∧ length (@nil Z) = length (@nil Z)
  ∧ map_interpretation_B [] = Ok []
  ∧ reconstruct_interpretation_B_all [] = Raise IndexError
  ∧ ¬ (∃ sols, reconstruct_interpretation_B_all [] = Ok sols
               ∧ ([] ∈ sols ↔ map_interpretation_B [] = Ok [])).
Proof.
  split; [constructor|]. repeat split. intros (sols & H & _). discriminate H.
Qed.

(** C1, amended: for every target with values in [1,26] and every sequence
    [s] of the same length with values in [1,26], whenever
    [reconstruct_interpretation_B_all(target)] returns a list, [s] is an
    element of it if and only if [map_interpretation_B(s) == target].  (No
    list is returned for the empty target, and none when the search nests
    deeper than the interpreter lets calls nest.) *)
Theorem reconstruct_B_complete (target s : list Z) (sols : list (list Z)) :
  Forall in_range target →
  Forall in_range s → length s = length target →
  reconstruct_interpretation_B_all target = Ok sols →
  (s ∈ sols ↔ map_interpretation_B s = Ok target).
Proof.
  intros _ Hs _ Hsols. destruct (decide (target = [])) as [->|Hne].
  - discriminate Hsols.
  - destruct (nonempty_snoc target Hne) as (front & yn & ->).
    rewrite reconstruct_B_spec in Hsols. injection Hsols as <-.
    by apply elem_of_reconstruct_B.
Qed.

Lemma reconstruct_B_complete_witness :
  [1; 26; 3] ∈ [[1; 26; 3]; [1; 17; 12]; [1; 8; 21]]
  ↔ map_interpretation_B [1; 26; 3] = Ok [9; 17; 9].
Proof.
  apply (reconstruct_B_complete [9; 17; 9] [1; 26; 3]
           [[1; 26; 3]; [1; 17; 12]; [1; 8; 21]]).
  - apply (bool_decide_unpack _). vm_compute. reflexivity.
  - apply (bool_decide_unpack _). vm_compute. reflexivity.
  - reflexivity.
  - vm_compute. reflexivity.
Defined.

(** C6: the list returned by [reconstruct_interpretation_B_all(target)]
    holds no sequence twice: two positions of the list that hold the same
    sequence are the same position.  The list is returned for every target
    of length at least 1. *)
Theorem reconstruct_B_no_duplicates (target : list Z) :
  (target ≠ [] → ∃ sols, reconstruct_interpretation_B_all target = Ok sols)
  ∧ (∀ sols, reconstruct_interpretation_B_all target = Ok sols →
       NoDup sols
       ∧ ∀ i j s, sols !! i = Some s → sols !! j = Some s → i = j).
Proof.
  assert (Hnodup : ∀ sols, reconstruct_interpretation_B_all target = Ok sols →
                           NoDup sols).
  { intros sols Hsols. destruct (decide (target = [])) as [->|Hne].
    - discriminate Hsols.
    - destruct (nonempty_snoc target Hne) as (front & yn & ->).
      rewrite reconstruct_B_spec in Hsols. injection Hsols as <-.
      apply NoDup_rev_enum_B. }
  split.
  - intros Hne. destruct (nonempty_snoc target Hne) as (front & yn & ->).
    rewrite reconstruct_B_spec. by eexists.
  - intros sols Hsols. split; [by apply Hnodup|].
    apply NoDup_alt. by apply Hnodup.
Qed.

Example reconstruct_B_two_letters :
  reconstruct_interpretation_B_all [17; 9]
  = Ok [[26; 3]; [17; 12]; [26; 12]; [8; 21]; [17; 21]; [26; 21]].
Proof. vm_compute. reflexivity. Qed.

(** * Further properties of the code *)

(** ** [digit_sum] *)

Lemma decimal_digit_sum_fuel_bounds fuel n :
  1 ≤ n ≤ Z.of_nat fuel →
  1 ≤ decimal_digit_sum_fuel fuel n ≤ n
  ∧ decimal_digit_sum_fuel fuel n mod 9 = n mod 9.
Proof.
  revert n. induction fuel as [|fuel IH]; intros n Hn; [lia|].
  cbn [decimal_digit_sum_fuel]. destruct (Z.ltb_spec n 10); [lia|].
  destruct (IH (n `div` 10)) as [Hb Hm];
    [Z.div_mod_to_equations; lia|].
  split; Z.div_mod_to_equations; lia.
Qed.

(** X1: [digit_sum(n)] raises [ValueError] for a negative [n]; it returns
    [n] for [0 <= n < 10]; and for [n >= 10] with no more digits than the
    limit of [str] it returns [digit_sum(n // 10) + n % 10]. *)
Theorem digit_sum_by_division :
  (∀ n, n < 0 → digit_sum n = Raise ValueError)
  ∧ (∀ n, 0 ≤ n < 10 → digit_sum n = Ok n)
  ∧ (∀ n, 10 ≤ n < 10 ^ int_max_str_digits →
       ∃ d, digit_sum (n `div` 10) = Ok d ∧ digit_sum n = Ok (d + n mod 10)).
Proof.
  split; [exact digit_sum_negative|]. split; [exact digit_sum_digit|].
  intros n [Hn _].
  destruct (digit_sum_nonneg (n `div` 10)) as [d Hd];
    [Z.div_mod_to_equations; lia|].
  exists d. split; [exact Hd|].
  rewrite (Z.div_mod n 10) at 1 by lia.
  apply digit_sum_step; [Z.div_mod_to_equations; lia| |exact Hd].
  apply Z.mod_pos_bound. lia.
Qed.

(** X2: for [n >= 1] with no more digits than the limit of [str],
    [digit_sum(n)] returns a value between 1 and [n] that is congruent to
    [n] modulo 9. *)
Theorem digit_sum_bounds (n : Z) :
  1 ≤ n < 10 ^ int_max_str_digits →
  ∃ d, digit_sum n = Ok d ∧ 1 ≤ d ≤ n ∧ d mod 9 = n mod 9.
Proof.
  intros [Hn _]. exists (decimal_digit_sum n).
  split; [apply digit_sum_decimal; lia|].
  apply decimal_digit_sum_fuel_bounds. lia.
Qed.

Lemma digit_sum_bounds_witness :
  ∃ d, digit_sum 199 = Ok d ∧ 1 ≤ d ≤ 199 ∧ d mod 9 = 199 mod 9.
Proof.
  apply (digit_sum_bounds 199). split; [lia|].
  apply Z.ltb_lt. vm_compute. reflexivity.
Defined.

(** ** The two dictionaries *)

(** X3: [val] and [letter] are inverse dictionaries: [val[c]] is [v] exactly
    when [letter[v]] is [c], and then [c] is one of the 26 letters and [v]
    is in [1,26]. *)
Theorem val_letter_inverse (c : ascii) (v : Z) :
  (val_getitem c = Ok v ↔ letter_getitem v = Ok c)
  ∧ (val_getitem c = Ok v → recognized c ∧ in_range v).
Proof.
  split; [split|].
  - intros Hc%val_getitem_Ok. destruct (val_entries c v Hc) as (_ & Hl & _).
    unfold letter_getitem. rewrite Hl. reflexivity.
  - unfold letter_getitem.
    destruct (letter !! v) as [c'|] eqn:Hl; [|discriminate].
    intros [= ->]. destruct (letter_entries v c Hl) as (_ & Hv).
    apply val_getitem_Ok. exact Hv.
  - intros Hc%val_getitem_Ok. destruct (val_entries c v Hc) as (? & _ & ?).
    split; assumption.
Qed.

Lemma string_of_list_ascii_length cs :
  String.length (string_of_list_ascii cs) = length cs.
Proof. induction cs as [|c cs IH]; simpl; congruence. Qed.

Lemma mapM_length {A B} (f : A → res B) l bs :
  mapM f l = Ok bs → length bs = length l.
Proof.
  rewrite mapM_Ok. intros H. symmetry. eapply Forall2_length. exact H.
Qed.

Lemma to_word_in_range seq :
  Forall in_range seq →
  ∃ w, to_word seq = Ok w ∧ from_word w = Ok seq
       ∧ Forall recognized (list_ascii_of_string w)
       ∧ String.length w = length seq.
Proof.
  intros Hs. destruct (mapM_letter_val _ Hs) as (cs & Hcs & Hrec & Hback).
  exists (string_of_list_ascii cs). unfold to_word, from_word.
  rewrite Hcs. cbn [bind]. split; [reflexivity|].
  rewrite list_ascii_of_string_of_list_ascii. split; [exact Hback|].
  split; [exact Hrec|].
  rewrite string_of_list_ascii_length. eapply mapM_length. exact Hcs.
Qed.

Lemma from_word_first_unrecognized pre c post :
  Forall recognized pre → ¬ recognized c →
  from_word (string_of_list_ascii (pre ++ c :: post)) = Raise (KeyError_chr c).
Proof.
  intros Hpre Hc. unfold from_word.
  rewrite list_ascii_of_string_of_list_ascii.
  apply mapM_Raise; [|by apply val_getitem_unrecognized].
  eapply Forall_impl; [exact Hpre|]. intros a Ha.
  destruct (val_getitem_recognized a Ha) as (x & Hx & _). by exists x.
Qed.

(** X4: for every sequence of values in [1,26],
    [from_word(to_word(seq)) == seq], and the word has as many letters as
    the sequence has values. *)
Theorem values_round_trip (seq : list Z) :
  Forall in_range seq →
  ∃ w, to_word seq = Ok w ∧ from_word w = Ok seq
       ∧ String.length w = length seq.
Proof.
  intros Hs. destruct (to_word_in_range seq Hs) as (w & Hw & Hback & _ & Hlen).
  exists w. split; [exact Hw|]. split; [exact Hback | exact Hlen].
Qed.

Lemma values_round_trip_witness :
  ∃ w, to_word [7; 9; 26] = Ok w ∧ from_word w = Ok [7; 9; 26]
       ∧ String.length w = 3%nat.
Proof.
  apply (values_round_trip [7; 9; 26]).
  apply (bool_decide_unpack _). vm_compute. reflexivity.
Defined.

(** ** [map_to_word_interpretation_A] *)

(** X5: on a word of recognised letters [map_to_word_interpretation_A]
    returns a word of recognised letters, whose values are the variant-A
    outputs of the values of the input ([to_word] cannot fail on them); on a
    word whose first unrecognised character is [c] it raises the
    [KeyError] of [c]. *)
Theorem map_to_word_A_spec :
  (∀ w, Forall recognized (list_ascii_of_string w) →
     ∃ v w', from_word w = Ok v
             ∧ map_to_word_interpretation_A w = Ok w'
             ∧ from_word w' = Ok (map_interpretation_A_tail_plus6_mod26 v)
             ∧ Forall recognized (list_ascii_of_string w')
             ∧ String.length w' = String.length w)
  ∧ (∀ pre c post, Forall recognized pre → ¬ recognized c →
       map_to_word_interpretation_A (string_of_list_ascii (pre ++ c :: post))
       = Raise (KeyError_chr c)).
Proof.
  split.
  - intros w Hw. destruct (mapM_val_letter _ Hw) as (v & Hv & _ & _).
    destruct (to_word_in_range (map_interpretation_A_tail_plus6_mod26 v))
      as (w' & Hw' & Hback & Hrec & Hlen); [apply map_A_in_range|].
    exists v, w'. unfold map_to_word_interpretation_A.
    change (from_word w) with (mapM val_getitem (list_ascii_of_string w)).
    rewrite Hv. cbn [bind]. split; [reflexivity|]. split; [exact Hw'|].
    split; [exact Hback|]. split; [exact Hrec|].
    rewrite Hlen, map_A_length. apply mapM_length in Hv. rewrite Hv.
    rewrite <- (string_of_list_ascii_of_string w) at 2.
    by rewrite string_of_list_ascii_length.
  - intros pre c post Hpre Hc. unfold map_to_word_interpretation_A.
    by rewrite from_word_first_unrecognized.
Qed.

Lemma map_to_word_A_spec_witness :
  ∃ v w', from_word "GIZSKYON" = Ok v
          ∧ map_to_word_interpretation_A "GIZSKYON" = Ok w'
          ∧ from_word w' = Ok (map_interpretation_A_tail_plus6_mod26 v)
          ∧ Forall recognized (list_ascii_of_string w')
          ∧ String.length w' = String.length "GIZSKYON".
Proof.
  apply (proj1 map_to_word_A_spec "GIZSKYON").
  apply (bool_decide_unpack _). vm_compute. reflexivity.
Defined.

(** ** Variant A: more on the reconstruction *)

Lemma reconstruct_A_of_values s :
  s ≠ [] → Forall in_range s →
  reconstruct_interpretation_A (map_interpretation_A_tail_plus6_mod26 s)
  = Ok (Some (Some <$> s)).
Proof.
  intros Hne Hr. destruct (nonempty_snoc s Hne) as (vs & x & ->).
  destruct (reconstructed_map_A vs x Hr) as (front & yn & -> & <-).
  apply reconstruct_A_spec.
Qed.

Lemma from_word_nonempty W v :
  W ≠ ""%string → from_word W = Ok v → v ≠ [].
Proof.
  intros Hne Hv ->. apply mapM_Ok in Hv. inversion Hv as [Hnil|].
  apply Hne. by rewrite <- (string_of_list_ascii_of_string W), <- Hnil.
Qed.

(** X6: the steps of the script compose to the identity on words: for a
    non-empty word W of recognised letters, [reconstruct_interpretation_A]
    on the values of W returns values [xs], [to_word(xs)] is a word, and
    [map_to_word_interpretation_A] maps that word back to W. *)
Theorem reconstructed_word_maps_to_target (W : string) :
  W ≠ ""%string → Forall recognized (list_ascii_of_string W) →
  ∃ t xs word_A,
    from_word W = Ok t
    ∧ reconstruct_interpretation_A t = Ok (Some (Some <$> xs))
    ∧ to_word xs = Ok word_A
    ∧ map_to_word_interpretation_A word_A = Ok W.
Proof.
  intros Hne HW.
  destruct (mapM_val_letter _ HW) as (t & Ht & Hr & Hback).
  pose proof (from_word_nonempty W t Hne Ht) as Ht_ne.
  destruct (nonempty_snoc t Ht_ne) as (front & yn & ->).
  set (xs := rev (last_T yn :: chain_A (rev front) (last_T yn))).
  assert (Hxs : Forall in_range xs).
  { apply Forall_rev. constructor;
      [apply last_T_in_range | apply chain_A_in_range]. }
  destruct (to_word_in_range xs Hxs) as (word_A & Hword & Hfrom & _ & _).
  exists (front ++ [yn]), xs, word_A.
  split; [exact Ht|]. split; [apply reconstruct_A_spec|].
  split; [exact Hword|].
  unfold map_to_word_interpretation_A. rewrite Hfrom. cbn [bind].
  unfold xs. rewrite map_A_reconstructed by exact Hr.
  unfold to_word. rewrite Hback. cbn [bind].
  by rewrite string_of_list_ascii_of_string.
Qed.

Lemma reconstructed_word_maps_to_target_witness :
  ∃ t xs word_A,
    from_word "BULLSHIT" = Ok t
    ∧ reconstruct_interpretation_A t = Ok (Some (Some <$> xs))
    ∧ to_word xs = Ok word_A
    ∧ map_to_word_interpretation_A word_A = Ok "BULLSHIT"%string.
Proof.
  apply (reconstructed_word_maps_to_target "BULLSHIT").
  - discriminate.
  - apply (bool_decide_unpack _). vm_compute. reflexivity.
Defined.

(** X7: the reconstruction of variant A is the only solution: if a
    sequence [s] of values in [1,26] has the non-empty target as its
    variant-A outputs, then [reconstruct_interpretation_A(target)] returns
    [s], and every sequence of values in [1,26] with these outputs is [s]. *)
Theorem reconstruct_A_unique (target s : list Z) :
  target ≠ [] → Forall in_range s →
  map_interpretation_A_tail_plus6_mod26 s = target →
  reconstruct_interpretation_A target = Ok (Some (Some <$> s))
  ∧ ∀ s', Forall in_range s' →
          map_interpretation_A_tail_plus6_mod26 s' = target → s' = s.
Proof.
  intros Hne Hs Hmap.
  assert (Hnonempty : ∀ r, map_interpretation_A_tail_plus6_mod26 r = target →
                           r ≠ []).
  { intros r Hr ->. apply Hne. by rewrite <- Hr. }
  assert (Hrec : ∀ r, Forall in_range r →
                      map_interpretation_A_tail_plus6_mod26 r = target →
                      reconstruct_interpretation_A target
                      = Ok (Some (Some <$> r))).
  { intros r Hr Hm. rewrite <- Hm.
    apply reconstruct_A_of_values; [by apply Hnonempty | exact Hr]. }
  split; [by apply Hrec|].
  intros s' Hs' Hmap'.
  pose proof (Hrec s Hs Hmap) as H1. rewrite (Hrec s' Hs' Hmap') in H1.
  injection H1 as H1. by apply (inj (fmap Some)) in H1.
Qed.

Lemma reconstruct_A_unique_witness :
  reconstruct_interpretation_A [2; 21; 12; 12; 19; 8; 9; 20]
  = Ok (Some (Some <$> [7; 9; 26; 19; 11; 25; 15; 14]))
  ∧ ∀ s', Forall in_range s' →
          map_interpretation_A_tail_plus6_mod26 s'
          = [2; 21; 12; 12; 19; 8; 9; 20] →
          s' = [7; 9; 26; 19; 11; 25; 15; 14].
Proof.
  apply (reconstruct_A_unique [2; 21; 12; 12; 19; 8; 9; 20]
           [7; 9; 26; 19; 11; 25; 15; 14]).
  - discriminate.
  - apply (bool_decide_unpack _). vm_compute. reflexivity.
  - vm_compute. reflexivity.
Defined.

Lemma add6_last_T_any y : add6 (last_T y) = ((y - 1) mod 26) + 1.
Proof. mod26. Qed.

Lemma add6_window_start_any y T :
  add6 (window_start y T) = ((y - 1) mod 26) + 1.
Proof. mod26. Qed.

Lemma outputs_chain_any ys T :
  outputs_A (chain_A ys T) T = (fun y => ((y - 1) mod 26) + 1) <$> ys.
Proof.
  revert T. induction ys as [|y ys IH]; intros T; [reflexivity|].
  cbn [chain_A outputs_A fmap list_fmap].
  replace (T + (window_start y T - T)) with (window_start y T) by lia.
  rewrite add6_window_start_any. f_equal. apply IH.
Qed.

Lemma rev_fmap {A B} (f : A → B) (l : list A) : rev (f <$> l) = f <$> rev l.
Proof.
  induction l as [|a l IH]; [reflexivity|].
  cbn [fmap list_fmap rev]. fold (f <$> l). rewrite IH, fmap_app. reflexivity.
Qed.

(** X8: on every non-empty list of integers, whatever their values,
    [reconstruct_interpretation_A] returns a list (never [None]) of the
    same length with values in [1,26]; its variant-A outputs are the target
    values brought into [1,26] modulo 26. *)
Theorem reconstruct_A_any_target (target : list Z) :
  target ≠ [] →
  ∃ xs, reconstruct_interpretation_A target = Ok (Some (Some <$> xs))
        ∧ length xs = length target
        ∧ Forall in_range xs
        ∧ map_interpretation_A_tail_plus6_mod26 xs
          = (fun y => ((y - 1) mod 26) + 1) <$> target.
Proof.
  intros Hne. destruct (nonempty_snoc target Hne) as (front & yn & ->).
  eexists. split; [apply reconstruct_A_spec|]. split; [|split].
  - rewrite length_rev, length_app. cbn [length].
    rewrite chain_A_length, length_rev. lia.
  - apply Forall_rev. constructor;
      [apply last_T_in_range | apply chain_A_in_range].
  - rewrite map_A_outputs, rev_involutive. cbn [outputs_A].
    rewrite Z.add_0_l, add6_last_T_any, outputs_chain_any.
    cbn [rev]. rewrite <- rev_fmap, rev_involutive, fmap_app. reflexivity.
Qed.

Lemma reconstruct_A_any_target_witness :
  ∃ xs, reconstruct_interpretation_A [0; -5; 100] = Ok (Some (Some <$> xs))
        ∧ length xs = 3%nat
        ∧ Forall in_range xs
        ∧ map_interpretation_A_tail_plus6_mod26 xs
          = (fun y => ((y - 1) mod 26) + 1) <$> [0; -5; 100].
Proof. apply (reconstruct_A_any_target [0; -5; 100]). discriminate. Defined.

(** X9: [reconstruct_interpretation_A] raises an exception exactly on the
    empty target, and the exception is the [IndexError] of
    [target_vals[-1]]. *)
Theorem reconstruct_A_raises_iff_empty (target : list Z) (e : exn) :
  reconstruct_interpretation_A target = Raise e
  ↔ target = [] ∧ e = IndexError.
Proof.
  destruct (decide (target = [])) as [->|Hne].
  - split; [intros [= <-]; by split | intros [_ ->]; reflexivity].
  - destruct (nonempty_snoc target Hne) as (front & yn & ->).
    rewrite reconstruct_A_spec.
    split; [discriminate | intros [? _]; contradiction].
Qed.

(** ** The forward maps on arbitrary integers *)

Lemma tail_sum_cons_0 v vs : tail_sum (v :: vs) 0 = sum (v :: vs).
Proof. reflexivity. Qed.

Lemma tail_sum_cons_S v vs i : tail_sum (v :: vs) (S i) = tail_sum vs i.
Proof. reflexivity. Qed.

(** With [digit_sum] as defined above, variant B stops only on a negative
    tail sum. *)
Lemma map_B_stops_on_negative (v : list Z) :
  ((∃ out, map_interpretation_B v = Ok out)
   ↔ ∀ i, (i < length v)%nat → 0 ≤ tail_sum v i)
  ∧ (∀ e, map_interpretation_B v = Raise e → e = ValueError).
Proof.
  induction v as [|a v [[IH1 IH2] IHe]].
  - split; [split|].
    + intros _ i Hi. simpl in Hi. lia.
    + intros _. by exists [].
    + discriminate.
  - rewrite map_B_cons. split; [split|].
    + intros [out Hout].
      destruct (map_interpretation_B v) as [r|] eqn:Hr; [|discriminate].
      cbn [bind] in Hout.
      destruct (Z.lt_ge_cases (sum (a :: v)) 0) as [Hneg|Hpos].
      { rewrite (digit_sum_negative _ Hneg) in Hout. discriminate. }
      intros [|i] Hi; [by rewrite tail_sum_cons_0|].
      rewrite tail_sum_cons_S. apply IH1; [by exists r|]. simpl in Hi. lia.
    + intros Htails.
      destruct IH2 as [r Hr].
      { intros i Hi. rewrite <- (tail_sum_cons_S a). apply Htails. simpl. lia. }
      destruct (digit_sum_nonneg (sum (a :: v))) as [d Hd].
      { rewrite <- tail_sum_cons_0. apply Htails. simpl. lia. }
      rewrite Hr, Hd. cbn [bind]. by eexists.
    + intros e.
      destruct (map_interpretation_B v) as [r|e'] eqn:Hr; cbn [bind].
      * destruct (Z.lt_ge_cases (sum (a :: v)) 0) as [Hneg|Hpos].
        -- rewrite (digit_sum_negative _ Hneg). cbn [bind]. by intros [= <-].
        -- destruct (digit_sum_nonneg _ Hpos) as [d ->]. discriminate.
      * intros [= <-]. by apply IHe.
Qed.

(** X12: when no tail sum of the values has more digits than the limit of
    [str], [map_interpretation_B] returns exactly when no tail sum is
    negative; and whenever it raises, the exception is a [ValueError]. *)
Theorem map_B_returns_iff (v : list Z) :
  (∀ i, (i < length v)%nat → tail_sum v i < 10 ^ int_max_str_digits) →
  ((∃ out, map_interpretation_B v = Ok out)
   ↔ ∀ i, (i < length v)%nat → 0 ≤ tail_sum v i)
  ∧ (∀ e, map_interpretation_B v = Raise e → e = ValueError).
Proof. intros _. apply map_B_stops_on_negative. Qed.

Lemma map_B_returns_iff_witness :
  ((∃ out, map_interpretation_B [5; -7; 3] = Ok out)
   ↔ ∀ i, (i < 3)%nat → 0 ≤ tail_sum [5; -7; 3] i)
  ∧ (∀ e, map_interpretation_B [5; -7; 3] = Raise e → e = ValueError).
Proof.
  apply (map_B_returns_iff [5; -7; 3]).
  intros i Hi. apply Z.ltb_lt.
  destruct i as [|[|[|i]]]; [vm_compute; reflexivity.. | simpl in Hi; lia].
Defined.

Lemma add6_periodic s k : add6 (s + 26 * k) = add6 s.
Proof.
  unfold add6. replace (s + 26 * k + 6 - 1) with (s + 6 - 1 + k * 26) by lia.
  by rewrite Z_mod_plus_full.
Qed.

(** X13: the variant-A forward map sees the values modulo 26 only: adding a
    multiple of 26 to any one value changes no output. *)
Theorem map_A_modulo_26 (l1 : list Z) (x k : Z) (l2 : list Z) :
  map_interpretation_A_tail_plus6_mod26 (l1 ++ (x + 26 * k) :: l2)
  = map_interpretation_A_tail_plus6_mod26 (l1 ++ x :: l2).
Proof.
  induction l1 as [|a l1 IH]; cbn [app]; rewrite !map_A_cons.
  - f_equal. rewrite !sum_cons.
    replace (x + 26 * k + sum l2) with (x + sum l2 + 26 * k) by lia.
    apply add6_periodic.
  - rewrite IH. f_equal. rewrite !sum_cons, !sum_app, !sum_cons.
    replace (a + (sum l1 + (x + 26 * k + sum l2)))
      with (a + (sum l1 + (x + sum l2)) + 26 * k) by lia.
    apply add6_periodic.
Qed.

(** ** Variant B: more on the search *)

Lemma outputs_B_length xs T ys :
  outputs_B xs T = Ok ys → length ys = length xs.
Proof.
  revert T ys. induction xs as [|x xs IH]; intros T ys; cbn [outputs_B].
  - by intros [= <-].
  - destruct (digit_sum (T + x)); cbn [bind]; [|discriminate].
    destruct (outputs_B xs (T + x)) as [r|] eqn:Hr; cbn [bind]; [|discriminate].
    intros [= <-]. simpl. f_equal. by eapply IH.
Qed.

(** Every returned sequence is a value sequence with the target as its
    variant-B outputs. *)
Lemma reconstruct_B_elem target sols s :
  reconstruct_interpretation_B_all target = Ok sols → s ∈ sols →
  Forall in_range s ∧ map_interpretation_B s = Ok target.
Proof.
  intros Hsols Hs. destruct (decide (target = [])) as [->|Hne];
    [discriminate Hsols|].
  destruct (nonempty_snoc target Hne) as (front & yn & ->).
  rewrite reconstruct_B_spec in Hsols. injection Hsols as <-.
  assert (Hr : Forall in_range s).
  { apply list_elem_of_fmap in Hs as (xs & -> & Hxs).
    apply elem_of_enum_B in Hxs as [Hr _]; [|lia]. by apply Forall_rev. }
  split; [exact Hr|]. by apply elem_of_reconstruct_B.
Qed.

(** X10: every sequence that [reconstruct_interpretation_B_all] returns has
    the length of the target, values in [1,26] only, and the target as its
    variant-B outputs. *)
Theorem reconstruct_B_solutions_shape (target : list Z)
    (sols : list (list Z)) (s : list Z) :
  reconstruct_interpretation_B_all target = Ok sols → s ∈ sols →
  length s = length target ∧ Forall in_range s
  ∧ map_interpretation_B s = Ok target.
Proof.
  intros Hsols Hs.
  destruct (reconstruct_B_elem target sols s Hsols Hs) as [Hr Hmap].
  split; [|by split].
  destruct (map_B_spec s Hr) as (out & Hout & Hlen & _).
  rewrite Hmap in Hout. injection Hout as <-. by symmetry.
Qed.

Lemma reconstruct_B_solutions_shape_witness :
  length [1; 26; 3] = length [9; 17; 9] ∧ Forall in_range [1; 26; 3]
  ∧ map_interpretation_B [1; 26; 3] = Ok [9; 17; 9].
Proof.
  apply (reconstruct_B_solutions_shape [9; 17; 9]
           [[1; 26; 3]; [1; 17; 12]; [1; 8; 21]] [1; 26; 3]).
  - vm_compute. reflexivity.
  - apply (bool_decide_unpack _). vm_compute. reflexivity.
Defined.

(** X11: a target that holds a value outside [1,26] has no solution:
    whenever [reconstruct_interpretation_B_all] returns a list for it, the
    list is empty. *)
Theorem reconstruct_B_out_of_range_target (target : list Z)
    (sols : list (list Z)) :
  ¬ Forall in_range target →
  reconstruct_interpretation_B_all target = Ok sols → sols = [].
Proof.
  intros Hout Hsols. destruct sols as [|s sols]; [reflexivity|].
  exfalso. apply Hout.
  destruct (reconstruct_B_elem _ _ s Hsols) as [Hr Hmap]; [by left|].
  destruct (map_B_spec s Hr) as (out & Ho & _ & Hrange & _).
  rewrite Hmap in Ho. by injection Ho as <-.
Qed.

Lemma reconstruct_B_out_of_range_target_witness : @nil (list Z) = [].
Proof.
  apply (reconstruct_B_out_of_range_target [9; 27] []).
  - intros H. inversion H as [|? ? _ H']; subst.
    inversion H' as [|? ? [_ Hle] _]; subst. lia.
  - vm_compute. reflexivity.
Defined.

(** X14: when a call [backtrack(i, T_next, acc_letters)] with an index
    inside the target and a tail sum that is not negative returns, it has
    kept the solutions recorded before it and has added only sequences that
    are the reversed accumulator, extended by [i + 1] values in [1,26]. *)
Theorem backtrack_records_extensions
    (target_vals : list Z) (k : nat) (T_next : Z) (st st' : search_state) :
  (k ≤ length target_vals)%nat → 0 ≤ T_next →
  backtrack target_vals k T_next st = Ok st' →
  ∃ new,
    st' = {| sols := sols st ++ new; acc_letters := acc_letters st |}
    ∧ ∀ s, s ∈ new →
        ∃ xs, s = rev (acc_letters st ++ xs)
              ∧ length xs = k ∧ Forall in_range xs.
Proof.
  intros Hk HT Hcall. rewrite backtrack_spec in Hcall by assumption.
  injection Hcall as <-. eexists. split; [reflexivity|].
  intros s (xs & -> & Hxs)%list_elem_of_fmap.
  apply elem_of_enum_B in Hxs as [Hr Hout]; [|exact HT].
  exists xs. split; [reflexivity|]. split; [|exact Hr].
  apply outputs_B_length in Hout.
  rewrite length_rev, length_take in Hout. lia.
Qed.

Lemma backtrack_records_extensions_witness :
  ∃ new,
    {| sols := [[1; 26; 3]]; acc_letters := [3] |}
    = {| sols := [] ++ new; acc_letters := [3] |}
    ∧ ∀ s, s ∈ new →
        ∃ xs, s = rev ([3] ++ xs) ∧ length xs = 2%nat ∧ Forall in_range xs.
Proof.
  apply (backtrack_records_extensions [9; 17; 9] 2 3
           {| sols := []; acc_letters := [3] |}
           {| sols := [[1; 26; 3]]; acc_letters := [3] |}).
  - simpl. lia.
  - lia.
  - vm_compute. reflexivity.
Defined.
